(** * kuho-voting: the constrained ballot and the score aggregation

    A shallow embedding of the voting logic of [src/app/page.tsx]:
    - [handleVote] of the [VotingPhase] component (one click on a vote button),
    - the allowance counters [plusUsed], [minusUsed] of [Home],
    - the [results] memo of the [ResultsPhase] component (the tally),
    - [handleUpdateName] and the phase switch of [Home], [canDelete] of
      [NominationPhase] and [handleImport] of [AdminPanel].

    A [Record<string, number>] is a finite map from strings to integers
    ([gmap string Z]): keys are unique and a missing key reads as
    [undefined].  Weights are integers, as the application writes them; the
    arithmetic of [number] on integers is the arithmetic of [Z] as long as
    the values stay within 2^53 in magnitude, which the statements about
    sums of arbitrary weights take as a hypothesis. *)

From stdpp Require Import gmap strings list fin_maps sorting.

Local Open Scope Z_scope.

(** ** Types and interfaces *)

(** [interface Movie]. [createdAt] is a Firestore timestamp, kept abstract as
    a number. *)
Record Movie := {
  id : string;
  title : string;
  link : option string;
  comment : option string;
  nominator : string;
  nominatorId : string;
  createdAt : Z
}.

(** [interface VoteDoc]. [votes] may be missing on a stored document (the
    tally guards it with [if (!voteDoc.votes) return]), [userName] is
    [user.displayName], a [string | null]. [updatedAt] is a server timestamp
    that no computation reads; it is left out. *)
Record VoteDoc := {
  votes : option (gmap string Z);
  userName : option string
}.

(** [interface ScoredMovie extends Movie]: the movie's own fields, kept
    together in [movie], and the four fields of the score. *)
Record ScoredMovie := {
  movie : Movie;
  plus : Z;
  minus : Z;
  total : Z;
  voters : list (option string * Z)
}.

(** The part of [FirebaseUser] the voting code reads. *)
Record FirebaseUser := {
  uid : string;
  displayName : option string
}.

(** [type: 'plus' | 'minus'], the second argument of [handleVote]. *)
Inductive VoteType := type_plus | type_minus.

(** [interface VotingPhaseProps]. *)
Record VotingPhaseProps := {
  user : option FirebaseUser;
  movies : list Movie;
  userVotes : gmap string Z;
  remainingPlus : Z;
  remainingMinus : Z
}.

(** ** Objects used as maps *)

(** [Object.values(o)]. *)
Definition Object_values (o : gmap string Z) : list Z := (map_to_list o).*2.

(** [o[key] || 0]: a missing key and a stored [0] both read as [0]. *)
Definition get_or_0 (o : gmap string Z) (key : string) : Z := default 0 (o !! key).

(** [Object.keys(o).forEach(key => { if (o[key] === 0) delete o[key]; })]. *)
Definition delete_zeros (o : gmap string Z) : gmap string Z :=
  filter (λ kv : string * Z, kv.2 ≠ 0) o.

(** ** VotingPhase *)

(** The weight [handleVote] decides on, [None] where it returns early. *)
Definition newVote (p : VotingPhaseProps) (currentVote : Z) (type : VoteType) : option Z :=
  match type with
  | type_plus =>
      if currentVote =? 1 then Some 0
      else if (0 <? remainingPlus p) || (currentVote =? -1) then Some 1
      else None
  | type_minus =>
      if currentVote =? -1 then Some 0
      else if (0 <? remainingMinus p) || (currentVote =? 1) then Some (-1)
      else None
  end.

(** [handleVote(movieId, type)]: the document id and the data handed to
    [setDoc], or [None] where the handler returns without writing. *)
Definition handleVote (p : VotingPhaseProps) (movieId : string) (type : VoteType)
    : option (string * VoteDoc) :=
  match user p with
  | None => None
  | Some u =>
      let currentVote := get_or_0 (userVotes p) movieId in
      match newVote p currentVote type with
      | None => None
      | Some v =>
          let newVotesMap := delete_zeros (<[movieId := v]> (userVotes p)) in
          Some (uid u, {| votes := Some newVotesMap; userName := displayName u |})
      end
  end.

(** The [disabled] attribute of the two vote buttons of a movie card. *)
Definition button_disabled (p : VotingPhaseProps) (movieId : string) (type : VoteType) : bool :=
  let myVote := get_or_0 (userVotes p) movieId in
  match type with
  | type_minus => negb (myVote =? -1) && (remainingMinus p =? 0)
  | type_plus => negb (myVote =? 1) && (remainingPlus p =? 0)
  end.

(** ** Home *)

(** [Object.values(myVotes).filter(v => v === 1).length], and the same
    for [-1]. *)
Definition plusUsed (myVotes : gmap string Z) : nat :=
  length (filter (λ v, v = 1) (Object_values myVotes)).
Definition minusUsed (myVotes : gmap string Z) : nat :=
  length (filter (λ v, v = -1) (Object_values myVotes)).

(** The props [Home] renders [VotingPhase] with. *)
Definition Home_VotingPhase (u : option FirebaseUser) (ms : list Movie)
    (myVotes : gmap string Z) : VotingPhaseProps :=
  {| user := u; movies := ms; userVotes := myVotes;
     remainingPlus := 7 - Z.of_nat (plusUsed myVotes);
     remainingMinus := 1 - Z.of_nat (minusUsed myVotes) |}.

(** The allowance counters of a ballot, as [Home] derives them. *)
Definition remainingPositive (myVotes : gmap string Z) : Z :=
  remainingPlus (Home_VotingPhase None [] myVotes).
Definition remainingNegative (myVotes : gmap string Z) : Z :=
  remainingMinus (Home_VotingPhase None [] myVotes).

(** One vote on a ballot: [handleVote] under the props of [Home], followed by
    the snapshot listener, which reads the written document back as
    [myVoteDoc.data().votes || {}]. Where [handleVote] writes nothing the
    ballot stays as it is. *)
Definition applyVote (u : option FirebaseUser) (ms : list Movie)
    (myVotes : gmap string Z) (movieId : string) (type : VoteType) : gmap string Z :=
  match handleVote (Home_VotingPhase u ms myVotes) movieId type with
  | Some (_, d) => default ∅ (votes d)
  | None => myVotes
  end.

(** A click on the vote button of a movie card. Cards are rendered for the
    listed movies only, and a disabled button does not call its handler. *)
Definition click (u : option FirebaseUser) (ms : list Movie)
    (myVotes : gmap string Z) (intent : string * VoteType) : gmap string Z :=
  let p := Home_VotingPhase u ms myVotes in
  if bool_decide (intent.1 ∈ (id <$> ms)) && negb (button_disabled p intent.1 intent.2)
  then applyVote u ms myVotes intent.1 intent.2
  else myVotes.

(** A sequence of votes, each one a call of [handleVote], from a given
    ballot on. *)
Definition applyVotes (u : option FirebaseUser) (ms : list Movie)
    (myVotes : gmap string Z) (intents : list (string * VoteType)) : gmap string Z :=
  foldl (λ b intent, applyVote u ms b intent.1 intent.2) myVotes intents.

(** A sequence of clicks. [user] and [movies] are state of [Home] that the
    snapshot listeners replace at any time (a movie that is deleted leaves
    the list), so each click comes with the user and the movie list of its
    moment. *)
Definition press (myVotes : gmap string Z)
    (p : option FirebaseUser * list Movie * (string * VoteType)) : gmap string Z :=
  click p.1.1 p.1.2 myVotes p.2.
Definition presses (myVotes : gmap string Z)
    (ps : list (option FirebaseUser * list Movie * (string * VoteType)))
    : gmap string Z :=
  foldl press myVotes ps.

(** ** ResultsPhase *)

(** [movies.map(m => ({ ...m, plus: 0, minus: 0, total: 0, voters: [] }))]. *)
Definition initial_score (m : Movie) : ScoredMovie :=
  {| movie := m; plus := 0; minus := 0; total := 0; voters := [] |}.

(** The body of [if (m) { ... }]: the three updates of the found score. *)
Definition count_vote (name : option string) (value : Z) (m : ScoredMovie) : ScoredMovie :=
  {| movie := movie m;
     plus := if value =? 1 then plus m + 1 else plus m;
     minus := if value =? 1 then minus m else minus m + 1;
     total := total m + value;
     voters := voters m ++ [(name, value)] |}.

(** [const m = scores.find(s => s.id === movieId); if (m) f(m)]: the first
    score of that id is updated in place, the array is left alone where
    there is none. *)
Fixpoint find_and (movieId : string) (f : ScoredMovie → ScoredMovie)
    (scores : list ScoredMovie) : list ScoredMovie :=
  match scores with
  | [] => []
  | s :: rest =>
      if String.eqb (id (movie s)) movieId then f s :: rest
      else s :: find_and movieId f rest
  end.

(** [Array.prototype.sort(compareFn)]: the stable sort of the language,
    as an insertion sort. [x] goes behind [y] where [compareFn(x, y) > 0]. *)
Fixpoint sort_insert {A} (compareFn : A → A → Z) (x : A) (l : list A) : list A :=
  match l with
  | [] => [x]
  | y :: l' =>
      if 0 <? compareFn x y then y :: sort_insert compareFn x l'
      else x :: y :: l'
  end.
Definition Array_sort {A} (compareFn : A → A → Z) (l : list A) : list A :=
  foldr (sort_insert compareFn) [] l.

(** [(a, b) => b.total - a.total], the comparator of the final sort. *)
Definition by_total (a b : ScoredMovie) : Z := total b - total a.

Section ResultsPhase.
(** [Object.entries]: the entries of the object in the order the engine
    enumerates them. *)
Variable Object_entries : gmap string Z → list (string * Z).

(** The callback of the inner [forEach]. *)
Definition each_entry (voteDoc : VoteDoc) (scores : list ScoredMovie)
    (entry : string * Z) : list ScoredMovie :=
  find_and entry.1 (count_vote (userName voteDoc) entry.2) scores.

(** The callback of [allVotes.forEach]. *)
Definition each_voteDoc (scores : list ScoredMovie) (voteDoc : VoteDoc)
    : list ScoredMovie :=
  match votes voteDoc with
  | None => scores
  | Some v => foldl (each_entry voteDoc) scores (Object_entries v)
  end.

(** [scores] as it stands before the final sort. *)
Definition scores_of (ms : list Movie) (allVotes : list VoteDoc) : list ScoredMovie :=
  foldl each_voteDoc (initial_score <$> ms) allVotes.

(** The [results] memo: the tally. *)
Definition results (ms : list Movie) (allVotes : list VoteDoc) : list ScoredMovie :=
  Array_sort by_total (scores_of ms allVotes).
End ResultsPhase.

(** An enumeration of the entries of an object lists each entry once. *)
Definition enumerates (Object_entries : gmap string Z → list (string * Z)) : Prop :=
  ∀ o, Object_entries o ≡ₚ map_to_list o.

(** The tally under the enumeration order of [map_to_list]. *)
Definition tally : list Movie → list VoteDoc → list ScoredMovie := results map_to_list.

(** What the entries of one ballot do to the scores, told score by score:
    a score takes the vote its id has on the ballot, and a later score of
    the same id finds that vote already spent. *)
Fixpoint count_ballot (name : option string) (vs : gmap string Z)
    (scores : list ScoredMovie) : list ScoredMovie :=
  match scores with
  | [] => []
  | s :: rest =>
      match vs !! id (movie s) with
      | Some value => count_vote name value s
      | None => s
      end :: count_ballot name (delete (id (movie s)) vs) rest
  end.

(** Scores in descending order of [total]. *)
Definition descending (a b : ScoredMovie) : Prop := total b ≤ total a.

(** The score balances: [total = plus - minus]. *)
Definition balanced (s : ScoredMovie) : Prop := total s = plus s - minus s.

(** Every weight on every ballot is +1 or -1. *)
Definition signed_weights (allVotes : list VoteDoc) : Prop :=
  Forall (λ d, match votes d with
               | Some vs => map_Forall (λ _ w, w = 1 ∨ w = -1) vs
               | None => True
               end) allVotes.

(** The number of values of an object that are [=== w]. *)
Definition used (w : Z) (o : gmap string Z) : nat :=
  length (filter (λ v, v = w) (Object_values o)).

(** [1] where the proposition holds, [0] where it does not. *)
Definition indicator (P : Prop) `{!Decision P} : nat := if decide P then 1%nat else 0%nat.

(** The entries of weight [w] of a ballot, counted on the map itself. *)
Definition count_entries (w : Z) (o : gmap string Z) : nat :=
  size (filter (λ kv : string * Z, kv.2 = w) o).

(** The ballot limits: at most 7 entries of weight +1, at most 1 of
    weight -1. *)
Definition within_limits (o : gmap string Z) : Prop :=
  (plusUsed o ≤ 7)%nat ∧ (minusUsed o ≤ 1)%nat.

(** The weight a vote of each type plants. *)
Definition weight (type : VoteType) : Z :=
  match type with type_plus => 1 | type_minus => -1 end.

(** ** Home: renaming *)

(** [batch.update(d.ref, { nominator: name })] on every movie found by
    [where("nominatorId", "==", user.uid)]. *)
Definition rename_movies (userId name : string) (ms : list Movie) : list Movie :=
  (λ m, if bool_decide (nominatorId m = userId)
        then {| id := id m; title := title m; link := link m; comment := comment m;
                nominator := name; nominatorId := nominatorId m;
                createdAt := createdAt m |}
        else m) <$> ms.

(** [batch.set(doc(db, COLL_VOTES, user.uid), { userName: name }, { merge: true })]:
    the field given is written, the other fields of the document stay, and
    a document that does not exist yet is created with that field alone. *)
Definition rename_voteDoc (name : string) (voteDoc : option VoteDoc) : VoteDoc :=
  {| votes := voteDoc ≫= votes; userName := Some name |}.

(** [handleUpdateName(name)], on the movies and on the votes document of the
    user: what the committed batch leaves in the two collections. *)
Definition handleUpdateName (u : option FirebaseUser) (name : string)
    (ms : list Movie) (voteDoc : option VoteDoc) : option (list Movie * VoteDoc) :=
  match u with
  | None => None
  | Some u => Some (rename_movies (uid u) name ms, rename_voteDoc name voteDoc)
  end.

(** ** Home: the phase *)

(** The three phase components [Home] can render. *)
Inductive PhaseComponent := Nomination | Voting | Results.

(** The values the three buttons of the admin panel hand to [onSetPhase]. *)
Definition phase_buttons : list string := ["nomination"; "voting"; "results"].

(** The callback of the snapshot on the state document: an existing
    document sets the phase to [currentPhase || 'nomination'], a missing
    one leaves the phase as it is (and writes the default document).
    [None] is a document that does not exist, [Some None] one without the
    field. *)
Definition onConfigSnapshot (phase : string) (snap : option (option string)) : string :=
  match snap with
  | None => phase
  | Some None => "nomination"
  | Some (Some currentPhase) =>
      if String.eqb currentPhase "" then "nomination" else currentPhase
  end.

(** The three conditional children of [<main>]. *)
Definition main (phase : string) : list PhaseComponent :=
  (if String.eqb phase "nomination" then [Nomination] else []) ++
  (if String.eqb phase "voting" then [Voting] else []) ++
  (if String.eqb phase "results" then [Results] else []).

(** The phase whose name the header shows as the current state. *)
Definition header (phase : string) : PhaseComponent :=
  if String.eqb phase "nomination" then Nomination
  else if String.eqb phase "voting" then Voting
  else Results.

(** ** NominationPhase: who may delete *)

Section NominationPhase.
(** The address the page compares [user.email] with. *)
Variable adminEmail : string.

(** [canDelete(movie)]. [email] is [user.email], a [string | null] of the
    signed-in user. *)
Definition canDelete (u : option FirebaseUser) (email : option string)
    (m : Movie) : bool :=
  match u with
  | None => false
  | Some u =>
      if bool_decide (email = Some adminEmail) then true
      else bool_decide (nominatorId m = uid u)
  end.
End NominationPhase.

(** ** AdminPanel: the import of a batch *)

(** The text of the import box is a JavaScript string: a sequence of UTF-16
    code units. [String.prototype.trim] strips the code units of
    [WhiteSpace] and [LineTerminator] from both ends. *)
Definition white_space : list N :=
  [9; 10; 11; 12; 13; 32; 160; 5760; 8192; 8193; 8194; 8195; 8196; 8197; 8198;
   8199; 8200; 8201; 8202; 8232; 8233; 8239; 8287; 12288; 65279]%N.
Definition is_white_space (c : N) : bool := bool_decide (c ∈ white_space).

Fixpoint trimStart (s : list N) : list N :=
  match s with
  | [] => []
  | c :: s' => if is_white_space c then trimStart s' else s
  end.
Definition trimEnd (s : list N) : list N := reverse (trimStart (reverse s)).
Definition trim (s : list N) : list N := trimEnd (trimStart s).

(** [s.split(sep)] for a separator of one code unit. *)
Fixpoint split (sep : N) (s : list N) : list (list N) :=
  match s with
  | [] => [[]]
  | c :: s' =>
      if (c =? sep)%N then [] :: split sep s'
      else match split sep s' with
           | part :: parts => (c :: part) :: parts
           | [] => [[c]]
           end
  end.

(** The data of one [addDoc] of the import; [createdAt] is a server
    timestamp. *)
Record ImportedMovie := {
  imported_title : list N;
  imported_link : list N;
  imported_nominator : list N;
  imported_comment : list N;
  imported_nominatorId : string
}.

(** The two default texts, "Neznámý film" and "Admin Import". *)
Definition unknown_film : list N :=
  [78; 101; 122; 110; 225; 109; 253; 32; 102; 105; 108; 109]%N.
Definition admin_import : list N :=
  [65; 100; 109; 105; 110; 32; 73; 109; 112; 111; 114; 116]%N.

(** [part?.trim() || fallback]. *)
Definition trim_or (part : option (list N)) (fallback : list N) : list N :=
  match part with
  | None => fallback
  | Some p => match trim p with [] => fallback | t => t end
  end.

(** The body of the loop over the lines: [None] where the line is skipped. *)
Definition import_line (u : FirebaseUser) (line : list N) : option ImportedMovie :=
  match trim line with
  | [] => None
  | _ =>
      let parts := split 9 line in
      if (1 <=? length parts)%nat
      then Some {| imported_title := trim_or (parts !! 0%nat) unknown_film;
                   imported_link := trim_or (parts !! 1%nat) [];
                   imported_nominator := trim_or (parts !! 2%nat) admin_import;
                   imported_comment := trim_or (parts !! 3%nat) [];
                   imported_nominatorId := uid u |}
      else None
  end.

(** [handleImport]: the documents handed to [addDoc], in order. *)
Definition handleImport (u : option FirebaseUser) (csvText : list N)
    : list ImportedMovie :=
  match u with
  | None => []
  | Some u => omap (import_line u) (split 10 csvText)
  end.

(** A field as the import stores it: trimmed, and free of tabs and line
    feeds. *)
Definition clean (field : list N) : Prop :=
  trim field = field ∧ (9%N ∉ field) ∧ (10%N ∉ field).

(** A row of four fields written out as one tab-separated line, and lines
    joined by line feeds. *)
Definition export_line (m : ImportedMovie) : list N :=
  imported_title m ++ 9%N :: imported_link m ++ 9%N :: imported_nominator m
    ++ 9%N :: imported_comment m.
Fixpoint join_lines (lines : list (list N)) : list N :=
  match lines with
  | [] => []
  | [line] => line
  | line :: rest => line ++ 10%N :: join_lines rest
  end.

(** A movie as a batch can carry it: clean fields, a title and a nominator
    that are not empty. *)
Definition importable (m : ImportedMovie) : Prop :=
  clean (imported_title m) ∧ clean (imported_link m) ∧
  clean (imported_nominator m) ∧ clean (imported_comment m) ∧
  imported_title m ≠ [] ∧ imported_nominator m ≠ [].

(** ** Reading a tally *)

(** The sum of the weights of a [voters] list. *)
Definition sum_weights (vs : list (option string * Z)) : Z :=
  foldr (λ v acc, v.2 + acc) 0 vs.

(** The entry a ballot holds for a movie, as the tally records it. *)
Definition ballot_entry (movieId : string) (d : VoteDoc) : option (option string * Z) :=
  vs ← votes d; value ← vs !! movieId; Some (userName d, value).

(** The entries the ballots hold for a movie, in the order of the ballots. *)
Definition votes_for (movieId : string) (allVotes : list VoteDoc)
    : list (option string * Z) :=
  omap (ballot_entry movieId) allVotes.

(** The score accounts for its [voters] list. *)
Definition accounted (s : ScoredMovie) : Prop :=
  plus s = Z.of_nat (length (filter (λ v, v.2 = 1) (voters s))) ∧
  minus s = Z.of_nat (length (filter (λ v, v.2 ≠ 1) (voters s))) ∧
  total s = sum_weights (voters s).

(** Two scores of the same movie id with the same counts and the same
    weights cast, voter by voter. *)
Definition same_counts (s s' : ScoredMovie) : Prop :=
  id (movie s) = id (movie s') ∧ plus s = plus s' ∧ minus s = minus s' ∧
  total s = total s' ∧ (voters s).*2 = (voters s').*2.

(** Two scores of the same movie with the same counts, the voters of one
    being the voters of the other in some order. *)
Definition same_score (s s' : ScoredMovie) : Prop :=
  movie s = movie s' ∧ plus s = plus s' ∧ minus s = minus s' ∧
  total s = total s' ∧ voters s ≡ₚ voters s'.

(** The sum of a count over the scores. *)
Definition sum_of (f : ScoredMovie → Z) (scores : list ScoredMovie) : Z :=
  foldr (λ s acc, f s + acc) 0 scores.

(** The votes document of a voter, under the name it carries, whose ballot
    was built by clicks from the empty ballot. *)
Definition ballot_by_clicks
    (voter : option string *
             list (option FirebaseUser * list Movie * (string * VoteType)))
    : VoteDoc :=
  {| votes := Some (presses ∅ voter.2); userName := voter.1 |}.

(** The vote a ballot holds for a movie, [None] where it holds none. *)
Definition vote_on (d : VoteDoc) (movieId : string) : option Z :=
  vs ← votes d; vs !! movieId.

(** [2^53]: up to it every integer is a [number], and an addition of
    integers whose sum stays within it is exact. *)
Definition exact_range : Z := 2 ^ 53.

(** Every value [total] takes while the votes of the score are added, one
    after the other, lies in the exact range. *)
Definition exact_sums (s : ScoredMovie) : Prop :=
  ∀ k, Z.abs (sum_weights (take k (voters s))) ≤ exact_range.

(** Every weight on every ballot is an integer of magnitude at most [W]. *)
Definition weights_within (W : Z) (allVotes : list VoteDoc) : Prop :=
  Forall (λ d, match votes d with
               | Some vs => map_Forall (λ _ w, Z.abs w ≤ W) vs
               | None => True
               end) allVotes.

(** The other type of vote, and the allowance left for a type. *)
Definition opposite (type : VoteType) : VoteType :=
  match type with type_plus => type_minus | type_minus => type_plus end.
Definition limit (type : VoteType) : Z :=
  match type with type_plus => 7 | type_minus => 1 end.
Definition remaining (type : VoteType) (myVotes : gmap string Z) : Z :=
  match type with
  | type_plus => remainingPositive myVotes
  | type_minus => remainingNegative myVotes
  end.

(** A vote that would switch the sign of the entry of a movie while the
    allowance of the new sign is used up. *)
Definition spent_switch (myVotes : gmap string Z) (movieId : string)
    (type : VoteType) : bool :=
  (get_or_0 myVotes movieId =? weight (opposite type))
  && (remaining type myVotes <=? 0).

(** A sequence of votes, each one a call of [handleVote], in which the
    switches at a used-up allowance are not made. *)
Definition applyVotes_unspent (u : option FirebaseUser) (ms : list Movie)
    (myVotes : gmap string Z) (intents : list (string * VoteType)) : gmap string Z :=
  foldl (λ b intent, if spent_switch b intent.1 intent.2 then b
                     else applyVote u ms b intent.1 intent.2) myVotes intents.

(** ** Sample data *)

Definition alice : FirebaseUser := {| uid := "uid-alice"; displayName := Some "Alice" |}.

Definition film (i : string) : Movie :=
  {| id := i; title := i; link := None; comment := None;
     nominator := "Alice"; nominatorId := "uid-alice"; createdAt := 0 |}.

Definition programme : list Movie :=
  film <$> ["a"; "b"; "c"; "d"; "e"; "f"; "g"; "h"; "i"; "j"].

Definition seven_plus : gmap string Z :=
  list_to_map [("a", 1); ("b", 1); ("c", 1); ("d", 1); ("e", 1); ("f", 1); ("g", 1)].
Definition seven_plus_one_minus : gmap string Z := <["h" := -1]> seven_plus.
Definition eight_plus : gmap string Z := <["h" := 1]> seven_plus.

(** Seven positive votes, a negative one, then a positive vote on the
    movie that holds the negative one. *)
Definition exchange_votes : list (string * VoteType) :=
  [("a", type_plus); ("b", type_plus); ("c", type_plus); ("d", type_plus);
   ("e", type_plus); ("f", type_plus); ("g", type_plus);
   ("h", type_minus); ("h", type_plus)].

(** Two voters and the buttons they click; the movie "a" is deleted while
    Bob is voting. *)
Definition bob : FirebaseUser := {| uid := "uid-bob"; displayName := Some "Bob" |}.
Definition two_voters
    : list (option string *
            list (option FirebaseUser * list Movie * (string * VoteType))) :=
  [(Some "Alice",
    [(Some alice, programme, ("a", type_plus));
     (Some alice, programme, ("b", type_minus));
     (Some alice, programme, ("c", type_plus))]);
   (Some "Bob",
    [(Some bob, programme, ("a", type_plus));
     (Some bob, film <$> ["b"; "c"; "d"], ("a", type_minus));
     (Some bob, film <$> ["b"; "c"; "d"], ("d", type_minus))])].

(** The code units of an ASCII text. *)
Definition units (s : string) : list N :=
  (λ c, N.of_nat (Ascii.nat_of_ascii c)) <$> String.list_ascii_of_string s.

(** Two movies of a batch, the second without link and comment. *)
Definition batch : list ImportedMovie :=
  [{| imported_title := units "Matrix"; imported_link := units "https://csfd.cz/1";
      imported_nominator := units "Pepa"; imported_comment := units "Must see!";
      imported_nominatorId := "uid-alice" |};
   {| imported_title := units "Alien"; imported_link := [];
      imported_nominator := units "Jana"; imported_comment := [];
      imported_nominatorId := "uid-alice" |}].

(** Two ballots over the programme; the first holds a vote for "ghost",
    which is not a listed movie. *)
Definition ballot_of_alice : VoteDoc :=
  {| votes := Some (<["a" := 1]> (<["ghost" := 1]> (<["b" := -1]> ∅)));
     userName := Some "Alice" |}.
Definition ballot_of_bob : VoteDoc :=
  {| votes := Some (<["a" := 1]> (<["c" := 1]> ∅)); userName := Some "Bob" |}.


(** ** Tactics *)

(** A decidable closed proposition, settled by evaluating its decision. *)
Ltac by_evaluation := apply (bool_decide_unpack _); vm_compute; exact I.

(** Case analysis on the tests of [newVote] and [button_disabled]. *)
Ltac vote_cases :=
  repeat match goal with
  | |- context [?x =? ?y] => destruct (Z.eqb_spec x y)
  | |- context [?x <? ?y] => destruct (Z.ltb_spec x y)
  | H : context [?x =? ?y] |- _ => destruct (Z.eqb_spec x y)
  | H : context [?x <? ?y] |- _ => destruct (Z.ltb_spec x y)
  end; simpl in *.

(** * Objects: counting values *)

Lemma plusUsed_used o : plusUsed o = used 1 o.
Proof. reflexivity. Qed.

Lemma minusUsed_used o : minusUsed o = used (-1) o.
Proof. reflexivity. Qed.

Lemma used_empty w : used w ∅ = 0%nat.
Proof. unfold used, Object_values. by rewrite map_to_list_empty. Qed.

Lemma used_insert_fresh w o k v :
  o !! k = None → used w (<[k:=v]> o) = (used w o + indicator (v = w))%nat.
Proof.
  intros Hk. unfold used, Object_values, indicator.
  rewrite (map_to_list_insert o k v Hk). cbn [fmap list_fmap snd].
  rewrite filter_cons. case_decide; simpl; lia.
Qed.

Lemma used_delete w o k v :
  o !! k = Some v → used w o = (used w (delete k o) + indicator (v = w))%nat.
Proof.
  intros Hk. rewrite <-(insert_delete_id o k v Hk) at 1.
  apply used_insert_fresh, lookup_delete_eq.
Qed.

Lemma used_delete_None w o k : o !! k = None → used w (delete k o) = used w o.
Proof. intros Hk. by rewrite delete_id. Qed.

Lemma used_delete_zeros w o : w ≠ 0 → used w (delete_zeros o) = used w o.
Proof.
  intros Hw. unfold delete_zeros.
  induction o as [|k v o Hk IH] using map_ind.
  - by rewrite map_filter_empty.
  - destruct (decide (v = 0)) as [->|Hv].
    + rewrite map_filter_insert_False by (simpl; tauto).
      rewrite delete_id by done. rewrite IH, used_insert_fresh by done.
      unfold indicator. rewrite decide_False by congruence. lia.
    + rewrite map_filter_insert_True by done.
      rewrite !used_insert_fresh, IH; [done..|].
      rewrite map_lookup_filter_None. by left.
Qed.

(** Writing [v] at [k] and dropping the zeros: what it does to the count of
    a non-zero weight [w]. *)
Lemma used_write w o k v :
  w ≠ 0 →
  (used w (delete_zeros (<[k:=v]> o)) + indicator (o !! k = Some w)
   = used w o + indicator (v = w))%nat.
Proof.
  intros Hw. rewrite used_delete_zeros by done.
  rewrite <-insert_delete_eq.
  rewrite used_insert_fresh by apply lookup_delete_eq.
  destruct (o !! k) as [x|] eqn:Hk.
  - rewrite (used_delete w o k x Hk). unfold indicator.
    repeat case_decide; simplify_eq; lia.
  - rewrite used_delete_None by done. unfold indicator at 2.
    rewrite decide_False by done. lia.
Qed.

Lemma get_or_0_weight o k w : w ≠ 0 → get_or_0 o k = w ↔ o !! k = Some w.
Proof.
  intros Hw. unfold get_or_0. destruct (o !! k); simpl; split; congruence.
Qed.

Lemma used_vote w o k v :
  w ≠ 0 →
  (used w (delete_zeros (<[k:=v]> o)) + indicator (get_or_0 o k = w)
   = used w o + indicator (v = w))%nat.
Proof.
  intros Hw. rewrite <-(used_write w o k v Hw). f_equal.
  unfold indicator. pose proof (get_or_0_weight o k w Hw).
  repeat case_decide; tauto.
Qed.

Lemma lookup_delete_zeros o k w : delete_zeros o !! k = Some w ↔ o !! k = Some w ∧ w ≠ 0.
Proof. unfold delete_zeros. by rewrite map_lookup_filter_Some. Qed.

Lemma delete_zeros_no_zero o k : delete_zeros o !! k ≠ Some 0.
Proof. rewrite lookup_delete_zeros. tauto. Qed.

Lemma used_count_entries w o : used w o = count_entries w o.
Proof.
  unfold count_entries. induction o as [|k v o Hk IH] using map_ind.
  - by rewrite used_empty, map_filter_empty, map_size_empty.
  - rewrite used_insert_fresh, IH by done. unfold indicator.
    case_decide as Hv.
    + rewrite map_filter_insert_True by done.
      rewrite map_size_insert_None; [lia|].
      rewrite map_lookup_filter_None. by left.
    + rewrite map_filter_insert_False by done.
      rewrite delete_id by done. lia.
Qed.

(** * VotingPhase: one vote *)

Lemma applyVote_no_user ms b c t : applyVote None ms b c t = b.
Proof. reflexivity. Qed.

Lemma applyVote_eq u ms b c t :
  applyVote (Some u) ms b c t =
  match newVote (Home_VotingPhase (Some u) ms b) (get_or_0 b c) t with
  | Some v => delete_zeros (<[c:=v]> b)
  | None => b
  end.
Proof.
  unfold applyVote, handleVote. simpl.
  by destruct (newVote _ _ _).
Qed.

Lemma applyVote_movies u ms ms' b c t : applyVote u ms b c t = applyVote u ms' b c t.
Proof. destruct u; [|done]. by rewrite !applyVote_eq. Qed.

(** What one vote does to the two counters, whatever the ballot. *)
Lemma applyVote_counts u ms b c t :
  let b' := applyVote u ms b c t in
  match t with
  | type_plus =>
      (minusUsed b' ≤ minusUsed b)%nat ∧
      ((plusUsed b' ≤ plusUsed b)%nat ∨
       plusUsed b' = S (plusUsed b) ∧
       ((plusUsed b < 7)%nat ∨ get_or_0 b c = -1))
  | type_minus =>
      (plusUsed b' ≤ plusUsed b)%nat ∧
      ((minusUsed b' ≤ minusUsed b)%nat ∨
       minusUsed b' = S (minusUsed b) ∧
       ((minusUsed b < 1)%nat ∨ get_or_0 b c = 1))
  end.
Proof.
  cbv zeta. destruct u as [u|]; [|rewrite applyVote_no_user; destruct t; lia].
  rewrite applyVote_eq, !plusUsed_used, !minusUsed_used.
  pose proof (λ v, used_vote 1 b c v ltac:(done)) as Hp.
  pose proof (λ v, used_vote (-1) b c v ltac:(done)) as Hm.
  destruct t; unfold newVote; simpl; rewrite ?plusUsed_used, ?minusUsed_used;
    vote_cases;
    repeat match goal with
    | |- context [delete_zeros (<[c:=?v]> b)] =>
        lazymatch goal with
        | _ : (used 1%Z (delete_zeros (<[c:=v]> b)) + _ = _)%nat |- _ => fail
        | _ => pose proof (Hp v); pose proof (Hm v)
        end
    end;
    clear Hp Hm; unfold indicator, plusUsed, minusUsed, used in *;
    repeat case_decide; lia.
Qed.

Lemma delete_zeros_id o : map_Forall (λ _ w, w ≠ 0) o → delete_zeros o = o.
Proof. intros Ho. apply map_filter_id. intros k w. apply Ho. Qed.

Lemma delete_zeros_insert_0 o k : delete_zeros (<[k:=0]> o) = delete_zeros (delete k o).
Proof. unfold delete_zeros. by rewrite map_filter_insert_False by (simpl; tauto). Qed.

Lemma click_within_limits u ms b intent :
  within_limits b → within_limits (click u ms b intent).
Proof.
  intros [Hp Hm]. unfold click.
  destruct (bool_decide _ && _) eqn:Hgate; [|done].
  apply andb_prop in Hgate as [_ Hen]. apply negb_true_iff in Hen.
  destruct intent as [c t]. simpl in *.
  pose proof (applyVote_counts u ms b c t) as Hc. cbv zeta in Hc.
  unfold within_limits, button_disabled in *. simpl in *.
  destruct t; vote_cases; lia.
Qed.

Lemma within_limits_empty : within_limits ∅.
Proof.
  unfold within_limits. rewrite plusUsed_used, minusUsed_used, !used_empty. lia.
Qed.

Lemma unspent_vote_within_limits u ms b c t :
  within_limits b → spent_switch b c t = false →
  within_limits (applyVote u ms b c t).
Proof.
  intros [Hp Hm] Hsw.
  pose proof (applyVote_counts u ms b c t) as Hc. cbv zeta in Hc.
  unfold within_limits. unfold spent_switch in Hsw.
  apply andb_false_iff in Hsw as [Hsw%Z.eqb_neq|Hsw%Z.leb_gt];
    destruct t; simpl in *;
    unfold remainingPositive, remainingNegative in *; simpl in *; lia.
Qed.

Lemma spent_switch_exceeds u ms b c t :
  spent_switch b c t = true → ¬ within_limits (applyVote (Some u) ms b c t).
Proof.
  unfold spent_switch. intros [Hcur%Z.eqb_eq Hrem%Z.leb_le]%andb_prop.
  rewrite applyVote_eq, Hcur.
  assert (newVote (Home_VotingPhase (Some u) ms b) (weight (opposite t)) t
          = Some (weight t)) as ->
    by (unfold newVote; destruct t; simpl; by rewrite orb_true_r).
  assert (weight t ≠ 0) as Hw by (destruct t; discriminate).
  pose proof (used_vote (weight t) b c (weight t) Hw) as Hu.
  rewrite Hcur in Hu. unfold indicator in Hu.
  rewrite decide_False, decide_True in Hu by (done || destruct t; discriminate).
  unfold within_limits. rewrite plusUsed_used, minusUsed_used.
  destruct t; simpl in *; unfold remainingPositive, remainingNegative in Hrem;
    simpl in Hrem; rewrite ?plusUsed_used, ?minusUsed_used in Hrem; lia.
Qed.

(** C1, as amended. Every ballot reached from the empty ballot by calls of
    [handleVote], none of them a switch of the sign of an entry made while
    the allowance of the new sign is used up, holds at most 7 entries of
    weight +1 and at most 1 of weight -1: any other vote at a used-up
    allowance takes a vote back or is refused by the handler. Such a switch,
    made by a signed-in user, always leaves a ballot beyond the limits. *)
Theorem unspent_votes_within_limits u ms intents :
  (let b := applyVotes_unspent u ms ∅ intents in
   (plusUsed b ≤ 7)%nat ∧ (minusUsed b ≤ 1)%nat) ∧
  (∀ u' b c t, spent_switch b c t = true →
     let b' := applyVote (Some u') ms b c t in
     ¬ ((plusUsed b' ≤ 7)%nat ∧ (minusUsed b' ≤ 1)%nat)).
Proof.
  split; [|intros u' b c t; apply spent_switch_exceeds].
  cbv zeta. change (within_limits (applyVotes_unspent u ms ∅ intents)).
  unfold applyVotes_unspent. generalize within_limits_empty.
  generalize (∅ : gmap string Z) as b.
  induction intents as [|[c t] l IH]; intros b Hb; [done|].
  simpl. apply IH. destruct (spent_switch b c t) eqn:Hsw; [done|].
  by apply unspent_vote_within_limits.
Qed.

Lemma unspent_votes_within_limits_witness :
  ¬ ((plusUsed (applyVote (Some alice) programme seven_plus_one_minus "h" type_plus)
      ≤ 7)%nat ∧
     (minusUsed (applyVote (Some alice) programme seven_plus_one_minus "h" type_plus)
      ≤ 1)%nat).
Proof.
  assert (spent_switch seven_plus_one_minus "h" type_plus = true) as Hsw
    by (vm_compute; reflexivity).
  exact (proj2 (unspent_votes_within_limits (Some alice) programme [])
           alice seven_plus_one_minus "h" type_plus Hsw).
Defined.

(** C1, as stated, fails: after seven positive votes and a negative one, a
    positive vote on the movie that holds the negative one is applied by
    [handleVote] and leaves 8 entries of weight +1. *)
Lemma applyVotes_exceed_limits :
  let b := applyVotes (Some alice) programme ∅ exchange_votes in
  plusUsed b = 8%nat ∧ ¬ ((plusUsed b ≤ 7)%nat ∧ (minusUsed b ≤ 1)%nat).
Proof.
  cbv zeta. assert (plusUsed (applyVotes (Some alice) programme ∅ exchange_votes) = 8%nat)
    as -> by (vm_compute; reflexivity).
  split; [done|lia].
Qed.

(** C2, as amended. On a ballot of exactly 7 entries of weight +1 and 1
    entry of weight -1, a positive vote on the movie holding the -1 turns
    that entry into +1 and leaves every other entry as it was; the ballot
    then holds 8 entries of weight +1 and its remaining positive allowance is
    7 - 8 = -1. *)
Theorem exchange_when_exhausted u ms b c :
  plusUsed b = 7%nat → minusUsed b = 1%nat →
  map_Forall (λ _ w, w = 1 ∨ w = -1) b →
  b !! c = Some (-1) →
  let b' := applyVote (Some u) ms b c type_plus in
  b' = <[c:=1]> b ∧ b' !! c = Some 1 ∧ (∀ k, k ≠ c → b' !! k = b !! k) ∧
  plusUsed b' = 8%nat ∧ minusUsed b' = 0%nat ∧ remainingPositive b' = -1.
Proof.
  intros Hp Hm Hw Hc. cbv zeta.
  assert (get_or_0 b c = -1) as Hcur by (unfold get_or_0; by rewrite Hc).
  assert (applyVote (Some u) ms b c type_plus = <[c:=1]> b) as ->.
  { rewrite applyVote_eq. unfold newVote. rewrite Hcur. simpl.
    rewrite orb_true_r. apply delete_zeros_id.
    apply map_Forall_insert_2; [done|].
    intros k w Hk. destruct (Hw k w Hk); lia. }
  pose proof (used_vote 1 b c 1 ltac:(done)) as H1.
  pose proof (used_vote (-1) b c 1 ltac:(done)) as H2.
  rewrite delete_zeros_id in H1, H2
    by (apply map_Forall_insert_2; [done|]; intros k w Hk; destruct (Hw k w Hk); lia).
  unfold indicator in H1, H2. rewrite Hcur in H1, H2.
  rewrite decide_False, decide_True in H1 by done.
  rewrite decide_True, decide_False in H2 by done.
  assert (plusUsed (<[c:=1]> b) = 8%nat) as Hp'
    by (rewrite plusUsed_used in *; lia).
  split_and!; [done|by rewrite lookup_insert_eq| |done| |].
  - intros k Hk. by rewrite lookup_insert_ne.
  - rewrite minusUsed_used in *. lia.
  - unfold remainingPositive. simpl. lia.
Qed.

Lemma exchange_when_exhausted_witness :
  applyVote (Some alice) programme seven_plus_one_minus "h" type_plus = eight_plus ∧
  remainingPositive (applyVote (Some alice) programme seven_plus_one_minus "h" type_plus) = -1.
Proof.
  assert (plusUsed seven_plus_one_minus = 7%nat) as Hp by (vm_compute; reflexivity).
  assert (minusUsed seven_plus_one_minus = 1%nat) as Hm by (vm_compute; reflexivity).
  assert (map_Forall (λ _ w, w = 1 ∨ w = -1) seven_plus_one_minus) as Hw
    by by_evaluation.
  assert (seven_plus_one_minus !! "h" = Some (-1)) as Hc by (vm_compute; reflexivity).
  destruct (exchange_when_exhausted alice programme seven_plus_one_minus "h" Hp Hm Hw Hc)
    as (Heq & _ & _ & _ & _ & Hrem).
  split; [exact Heq|exact Hrem].
Defined.

(** C2, as stated, fails: on the ballot of 7 positive entries and a negative
    one on "h", the positive vote on "h" leaves a remaining positive
    allowance that is not 0. *)
Lemma exchange_allowance_not_0 :
  plusUsed seven_plus_one_minus = 7%nat ∧ minusUsed seven_plus_one_minus = 1%nat ∧
  seven_plus_one_minus !! "h" = Some (-1) ∧
  remainingPositive (applyVote (Some alice) programme seven_plus_one_minus "h" type_plus) ≠ 0.
Proof. split_and!; vm_compute; congruence. Qed.

(** C3, as amended. [handleVote] does not consult the list of movies: a vote
    naming an id that is not listed is applied by the same rule as any
    other, and with no entry yet and positive allowance left it creates the
    entry of weight +1. Unlisted ids are kept out by the page alone, which
    renders vote buttons for the listed movies only. *)
Theorem vote_for_unlisted_movie u ms b c :
  c ∉ (id <$> ms) → b !! c = None → (plusUsed b < 7)%nat →
  (∀ ms' t, applyVote (Some u) ms b c t = applyVote (Some u) ms' b c t) ∧
  applyVote (Some u) ms b c type_plus = <[c:=1]> (delete_zeros b) ∧
  applyVote (Some u) ms b c type_plus !! c = Some 1 ∧
  (∀ t, click (Some u) ms b (c, t) = b).
Proof.
  intros Hc Hb Hp.
  assert (applyVote (Some u) ms b c type_plus = <[c:=1]> (delete_zeros b)) as Heq.
  { rewrite applyVote_eq. unfold newVote, get_or_0. rewrite Hb. simpl.
    vote_cases; [|lia]. unfold delete_zeros. by rewrite map_filter_insert_True. }
  split_and!.
  - intros ms' t. apply applyVote_movies.
  - done.
  - by rewrite Heq, lookup_insert_eq.
  - intros t. unfold click. simpl. by rewrite bool_decide_eq_false_2.
Qed.

Lemma vote_for_unlisted_movie_witness :
  applyVote (Some alice) programme ∅ "ghost" type_plus !! "ghost" = Some 1.
Proof.
  assert ("ghost" ∉ (id <$> programme)) as Hc
    by by_evaluation.
  assert ((∅ : gmap string Z) !! "ghost" = None) as Hb by reflexivity.
  assert (plusUsed ∅ < 7)%nat as Hp by (vm_compute; lia).
  exact (proj1 (proj2 (proj2 (vote_for_unlisted_movie alice programme ∅ "ghost" Hc Hb Hp)))).
Defined.

(** C3, as stated, fails: "ghost" is not a listed movie, and the positive
    vote on it changes the empty ballot. *)
Lemma unlisted_movie_not_ignored :
  ("ghost" ∉ (id <$> programme)) ∧
  (applyVote (Some alice) programme ∅ "ghost" type_plus ≠ ∅).
Proof.
  split; [by_evaluation|].
  intros H. apply (f_equal (λ o : gmap string Z, o !! "ghost")) in H.
  vm_compute in H. discriminate.
Qed.

(** C4, as amended. For every ballot the remaining positive allowance is 7
    minus the number of entries of weight +1, and the remaining negative
    allowance is 1 minus the number of entries of weight -1; nothing clamps
    them, so each is non-negative exactly when its count is within the
    limit, and negative beyond it. *)
Theorem remaining_allowance b :
  remainingPositive b = 7 - Z.of_nat (count_entries 1 b) ∧
  remainingNegative b = 1 - Z.of_nat (count_entries (-1) b) ∧
  (0 ≤ remainingPositive b ↔ (count_entries 1 b ≤ 7)%nat) ∧
  (0 ≤ remainingNegative b ↔ (count_entries (-1) b ≤ 1)%nat).
Proof.
  unfold remainingPositive, remainingNegative. simpl.
  rewrite plusUsed_used, minusUsed_used, !used_count_entries. lia.
Qed.

(** C4, as stated, fails: a ballot of 8 entries of weight +1 has a remaining
    positive allowance of -1, which is negative and is not the clamped
    value. *)
Lemma remaining_allowance_negative :
  count_entries 1 eight_plus = 8%nat ∧
  remainingPositive eight_plus = -1 ∧
  remainingPositive eight_plus ≠ Z.max 0 (7 - Z.of_nat (count_entries 1 eight_plus)).
Proof. split_and!; vm_compute; congruence. Qed.



(** C7. On a ballot of exactly 7 entries of weight +1 and none of weight
    -1, a positive vote on a movie that has no entry writes nothing: the
    ballot returned is the ballot given. *)
Theorem exhausted_noop u ms b c :
  plusUsed b = 7%nat → minusUsed b = 0%nat → b !! c = None →
  handleVote (Home_VotingPhase u ms b) c type_plus = None ∧
  applyVote u ms b c type_plus = b.
Proof.
  intros Hp Hm Hc.
  assert (handleVote (Home_VotingPhase u ms b) c type_plus = None) as Hnone.
  { unfold handleVote. simpl. destruct u as [u|]; [|done].
    unfold newVote, get_or_0. rewrite Hc. simpl. rewrite Hp. done. }
  split; [done|]. unfold applyVote. by rewrite Hnone.
Qed.

Lemma exhausted_noop_witness :
  applyVote (Some alice) programme seven_plus "j" type_plus = seven_plus.
Proof.
  assert (plusUsed seven_plus = 7%nat) as Hp by (vm_compute; reflexivity).
  assert (minusUsed seven_plus = 0%nat) as Hm by (vm_compute; reflexivity).
  assert (seven_plus !! "j" = None) as Hc by (vm_compute; reflexivity).
  exact (proj2 (exhausted_noop (Some alice) programme seven_plus "j" Hp Hm Hc)).
Defined.

(** * Array.prototype.sort *)

Lemma sort_insert_Permutation {A} (compareFn : A → A → Z) x l :
  sort_insert compareFn x l ≡ₚ x :: l.
Proof.
  induction l as [|y l IH]; simpl; [done|].
  case_match; [|done]. rewrite IH. apply Permutation_swap.
Qed.

Lemma Array_sort_Permutation {A} (compareFn : A → A → Z) l :
  Array_sort compareFn l ≡ₚ l.
Proof.
  induction l as [|x l IH]; simpl; [done|].
  fold (Array_sort compareFn l). by rewrite sort_insert_Permutation, IH.
Qed.

Lemma sort_insert_descending x l :
  StronglySorted descending l → StronglySorted descending (sort_insert by_total x l).
Proof.
  induction 1 as [|y l Hl IH Hy]; simpl.
  - repeat constructor.
  - unfold by_total at 1. destruct (Z.ltb_spec 0 (total y - total x)).
    + constructor; [done|]. rewrite sort_insert_Permutation.
      constructor; [unfold descending; lia|done].
    + constructor; [by constructor|].
      constructor; [unfold descending; lia|].
      eapply Forall_impl; [exact Hy|]. unfold descending. intros; lia.
Qed.

Lemma Array_sort_descending l : StronglySorted descending (Array_sort by_total l).
Proof.
  induction l as [|x l IH]; simpl; [constructor|].
  by apply sort_insert_descending.
Qed.

(** Stability: the scores of one total keep their order. *)
Lemma sort_insert_stable v x l :
  filter (λ s, total s = v) (sort_insert by_total x l)
  = filter (λ s, total s = v) (x :: l).
Proof.
  induction l as [|y l IH]; simpl; [done|].
  unfold by_total at 1. destruct (Z.ltb_spec 0 (total y - total x)); [|done].
  rewrite (filter_cons _ y), IH, !filter_cons.
  repeat case_decide; try done; lia.
Qed.

Lemma Array_sort_stable v l :
  filter (λ s, total s = v) (Array_sort by_total l) = filter (λ s, total s = v) l.
Proof.
  induction l as [|x l IH]; simpl; [done|].
  fold (Array_sort by_total l). by rewrite sort_insert_stable, !filter_cons, IH.
Qed.

(** * ResultsPhase: the scores *)

Lemma movie_count_vote name value s : movie (count_vote name value s) = movie s.
Proof. reflexivity. Qed.

Lemma fmap_movie_find_and k f scores :
  (∀ s, movie (f s) = movie s) → movie <$> find_and k f scores = movie <$> scores.
Proof.
  intros Hf. induction scores as [|s rest IH]; simpl; [done|].
  case_match; csimpl; by rewrite ?Hf, ?IH.
Qed.

Lemma fmap_movie_each_voteDoc entries scores d :
  movie <$> each_voteDoc entries scores d = movie <$> scores.
Proof.
  unfold each_voteDoc. destruct (votes d) as [vs|]; [|done].
  generalize (entries vs) as l. intros l. revert scores.
  induction l as [|e l IH]; intros scores; simpl; [done|].
  rewrite IH. unfold each_entry. by apply fmap_movie_find_and.
Qed.

Lemma fmap_movie_foldl_each_voteDoc entries scores allVotes :
  movie <$> foldl (each_voteDoc entries) scores allVotes = movie <$> scores.
Proof.
  revert scores. induction allVotes as [|d l IH]; intros scores; simpl; [done|].
  by rewrite IH, fmap_movie_each_voteDoc.
Qed.

Lemma fmap_movie_scores_of entries ms allVotes :
  movie <$> scores_of entries ms allVotes = ms.
Proof.
  unfold scores_of. rewrite fmap_movie_foldl_each_voteDoc.
  rewrite <-list_fmap_compose. apply list_fmap_id.
Qed.

Lemma filter_sublist_mono {A} (P : A → Prop) `{!∀ x, Decision (P x)} l1 l2 :
  sublist l1 l2 → sublist (filter P l1) (filter P l2).
Proof.
  induction 1 as [|x l1 l2 _ IH|x l1 l2 _ IH]; [done|..]; rewrite ?filter_cons.
  - case_decide; [by apply sublist_skip|done].
  - case_decide; [by apply sublist_cons|done].
Qed.

(** Two scores of one total that stand in this order in the sorted array
    stood in this order before the sort. *)
Lemma Array_sort_keeps_ties a b l :
  total a = total b → sublist [a; b] (Array_sort by_total l) → sublist [a; b] l.
Proof.
  intros Hab Hsub.
  apply (filter_sublist_mono (λ s, total s = total a)) in Hsub.
  rewrite Array_sort_stable, !filter_cons, filter_nil in Hsub.
  rewrite decide_True, decide_True in Hsub by done.
  etrans; [exact Hsub|]. apply sublist_filter.
Qed.

(** C5. Whatever the movies and the ballots, the tally is in descending
    order of [total], and it is the stable sort of the scores taken in the
    order of the movie list: the scores of any one total stand in the tally
    in the order they have in that list, so of two tied scores the one that
    comes first in the tally is of the movie that comes first in the list. *)
Theorem results_sorted_stable entries ms allVotes :
  let r := results entries ms allVotes in
  let scores := scores_of entries ms allVotes in
  StronglySorted (λ a b, total b ≤ total a) r ∧
  r ≡ₚ scores ∧
  movie <$> scores = ms ∧
  (∀ v, filter (λ s, total s = v) r = filter (λ s, total s = v) scores) ∧
  (∀ a b, total a = total b → sublist [a; b] r →
          sublist [a; b] scores ∧ sublist [movie a; movie b] ms).
Proof.
  cbv zeta. unfold results. split_and!.
  - apply Array_sort_descending.
  - apply Array_sort_Permutation.
  - apply fmap_movie_scores_of.
  - intros v. apply Array_sort_stable.
  - intros a b Hab Hsub. apply Array_sort_keeps_ties in Hsub; [|done].
    split; [done|].
    rewrite <-(fmap_movie_scores_of entries ms allVotes).
    by apply (fmap_sublist movie) in Hsub.
Qed.

(** * ResultsPhase: one ballot, score by score *)

Lemma count_ballot_empty name scores : count_ballot name ∅ scores = scores.
Proof.
  induction scores as [|s rest IH]; simpl; [done|].
  by rewrite lookup_empty, delete_empty, IH.
Qed.

Lemma fmap_movie_count_ballot name vs scores :
  movie <$> count_ballot name vs scores = movie <$> scores.
Proof.
  revert vs. induction scores as [|s rest IH]; intros vs; csimpl; [done|].
  rewrite IH. by destruct (vs !! _).
Qed.

(** An entry whose key the ballot does not hold yet: finding its score in
    the scores the ballot has made is counting the ballot with that entry. *)
Lemma find_and_count_ballot name vs k v scores :
  vs !! k = None →
  find_and k (count_vote name v) (count_ballot name vs scores)
  = count_ballot name (<[k:=v]> vs) scores.
Proof.
  revert vs. induction scores as [|s rest IH]; intros vs Hk; simpl; [done|].
  assert (id (movie (match vs !! id (movie s) with
                     | Some value => count_vote name value s
                     | None => s
                     end)) = id (movie s)) as ->
    by (destruct (vs !! id (movie s)); reflexivity).
  destruct (String.eqb_spec (id (movie s)) k) as [->|Hne].
  - rewrite Hk, lookup_insert_eq, delete_insert_eq, delete_id by done. done.
  - rewrite lookup_insert_ne by done. f_equal.
    rewrite IH by (by rewrite lookup_delete_ne).
    by rewrite delete_insert_ne.
Qed.

Lemma foldl_each_entry d scores l :
  NoDup l.*1 →
  foldl (each_entry d) scores l = count_ballot (userName d) (list_to_map l) scores.
Proof.
  induction l as [|[k v] l IH] using rev_ind; intros Hl.
  - simpl. by rewrite count_ballot_empty.
  - rewrite fmap_app in Hl. apply NoDup_app in Hl as (Hl & Hk & _).
    rewrite foldl_snoc, IH by done. unfold each_entry. simpl.
    assert (k ∉ l.*1) as Hkl by (intros Hin; apply (Hk k Hin); csimpl; left).
    rewrite find_and_count_ballot by (by apply not_elem_of_list_to_map_1).
    by rewrite list_to_map_snoc.
Qed.

Lemma each_voteDoc_count_ballot entries scores d vs :
  enumerates entries → votes d = Some vs →
  each_voteDoc entries scores d = count_ballot (userName d) vs scores.
Proof.
  intros Hen Hd. unfold enumerates in Hen. unfold each_voteDoc. rewrite Hd.
  rewrite foldl_each_entry.
  - f_equal. symmetry. apply list_to_map_flip. symmetry. apply Hen.
  - rewrite (Hen vs). apply NoDup_fst_map_to_list.
Qed.

(** The order in which the entries of a ballot are enumerated does not
    show in the scores. *)
Lemma each_voteDoc_enumeration entries1 entries2 scores d :
  enumerates entries1 → enumerates entries2 →
  each_voteDoc entries1 scores d = each_voteDoc entries2 scores d.
Proof.
  intros H1 H2. destruct (votes d) as [vs|] eqn:Hd.
  - by rewrite !(each_voteDoc_count_ballot _ _ _ vs).
  - unfold each_voteDoc. by rewrite Hd.
Qed.

Lemma scores_of_enumeration entries1 entries2 ms allVotes :
  enumerates entries1 → enumerates entries2 →
  scores_of entries1 ms allVotes = scores_of entries2 ms allVotes.
Proof.
  intros H1 H2. unfold scores_of. generalize (initial_score <$> ms) as scores.
  induction allVotes as [|d l IH]; intros scores; simpl; [done|].
  by rewrite IH, (each_voteDoc_enumeration entries1 entries2).
Qed.

Lemma count_ballot_delete_unlisted name vs k scores :
  k ∉ (id <$> (movie <$> scores)) →
  count_ballot name (delete k vs) scores = count_ballot name vs scores.
Proof.
  revert vs. induction scores as [|s rest IH]; intros vs Hk; simpl; [done|].
  csimpl in Hk. apply not_elem_of_cons in Hk as [Hne Hk].
  rewrite lookup_delete_ne by done. f_equal.
  rewrite delete_delete. by apply IH.
Qed.

Lemma find_and_unlisted k f scores :
  k ∉ (id <$> (movie <$> scores)) → find_and k f scores = scores.
Proof.
  induction scores as [|s rest IH]; intros Hk; simpl; [done|].
  csimpl in Hk. apply not_elem_of_cons in Hk as [Hne Hk].
  destruct (String.eqb_spec (id (movie s)) k); [done|]. by rewrite IH.
Qed.

(** C8. An entry of a ballot whose key is the id of no listed movie is
    skipped: the tally is computed all the same, counting that entry
    changes no score, and the tally is the one of the ballots without the
    entry, so it shows in no [plus], [minus], [total] or [voters]. *)
Theorem unlisted_entry_dropped entries ms before d after vs k :
  enumerates entries → k ∉ (id <$> ms) → votes d = Some vs →
  (∀ scores w, movie <$> scores = ms → each_entry d scores (k, w) = scores) ∧
  results entries ms (before ++ d :: after)
  = results entries ms
      (before ++ {| votes := Some (delete k vs); userName := userName d |} :: after).
Proof.
  intros Hen Hk Hd. split.
  - intros scores w Hs. unfold each_entry. simpl.
    apply find_and_unlisted. by rewrite Hs.
  - unfold results, scores_of. rewrite !foldl_app. simpl. do 2 f_equal.
    rewrite (each_voteDoc_count_ballot _ _ d vs) by done.
    rewrite (each_voteDoc_count_ballot _ _ _ (delete k vs)) by done.
    simpl. symmetry. apply count_ballot_delete_unlisted.
    rewrite fmap_movie_foldl_each_voteDoc.
    rewrite <-(list_fmap_compose initial_score movie), list_fmap_id. done.
Qed.

Lemma unlisted_entry_dropped_witness :
  tally programme [ballot_of_alice; ballot_of_bob]
  = tally programme
      [{| votes := Some (<["a" := 1]> (<["b" := -1]> ∅)); userName := Some "Alice" |};
       ballot_of_bob].
Proof.
  assert (enumerates map_to_list) as Hen by (intros o; reflexivity).
  assert ("ghost" ∉ (id <$> programme)) as Hk by by_evaluation.
  assert (votes ballot_of_alice
          = Some (<["a" := 1]> (<["ghost" := 1]> (<["b" := -1]> ∅)))) as Hd
    by reflexivity.
  exact (proj2 (unlisted_entry_dropped map_to_list programme [] ballot_of_alice
                  [ballot_of_bob] _ "ghost" Hen Hk Hd)).
Defined.

(** C9. The tally is a function of the movie list and of the ballots: two
    calls on identical lists return identical results, the order of each
    [voters] list included, in whatever order each call enumerates the
    entries of a ballot. *)
Theorem results_deterministic entries1 entries2 ms1 ms2 allVotes1 allVotes2 :
  enumerates entries1 → enumerates entries2 →
  ms1 = ms2 → allVotes1 = allVotes2 →
  results entries1 ms1 allVotes1 = results entries2 ms2 allVotes2 ∧
  voters <$> results entries1 ms1 allVotes1 = voters <$> results entries2 ms2 allVotes2.
Proof.
  intros H1 H2 -> ->.
  assert (results entries1 ms2 allVotes2 = results entries2 ms2 allVotes2) as ->; [|done].
  unfold results. by rewrite (scores_of_enumeration entries1 entries2).
Qed.

Lemma results_deterministic_witness :
  results map_to_list programme [ballot_of_alice; ballot_of_bob]
  = results (λ o, reverse (map_to_list o)) programme [ballot_of_alice; ballot_of_bob].
Proof.
  assert (enumerates map_to_list) as H1 by (intros o; reflexivity).
  assert (enumerates (λ o, reverse (map_to_list o))) as H2
    by (intros o; apply reverse_Permutation).
  exact (proj1 (results_deterministic map_to_list (λ o, reverse (map_to_list o))
                  programme programme [ballot_of_alice; ballot_of_bob]
                  [ballot_of_alice; ballot_of_bob] H1 H2 eq_refl eq_refl)).
Defined.

(** * ResultsPhase: the balance of a score *)

Lemma balanced_count_vote name value m :
  balanced m → balanced (count_vote name value m) ↔ value = 1 ∨ value = -1.
Proof.
  unfold balanced, count_vote. simpl. intros Hm.
  destruct (Z.eqb_spec value 1); lia.
Qed.

Lemma Forall_balanced_count_ballot name vs scores :
  map_Forall (λ _ w, w = 1 ∨ w = -1) vs →
  Forall balanced scores → Forall balanced (count_ballot name vs scores).
Proof.
  intros Hvs Hs. revert vs Hvs.
  induction Hs as [|s rest Hs Hrest IH]; intros vs Hvs; simpl; constructor.
  - destruct (vs !! id (movie s)) as [w|] eqn:Hw; [|done].
    apply balanced_count_vote; [done|]. exact (Hvs _ _ Hw).
  - apply IH. by apply map_Forall_delete.
Qed.

Lemma Forall_balanced_scores_of entries ms allVotes :
  enumerates entries → signed_weights allVotes →
  Forall balanced (scores_of entries ms allVotes).
Proof.
  intros Hen Hall. unfold scores_of.
  assert (Forall balanced (initial_score <$> ms)) as Hinit.
  { apply Forall_fmap, Forall_true. intros m. unfold balanced. simpl. lia. }
  revert Hinit. generalize (initial_score <$> ms) as scores.
  induction Hall as [|d l Hd Hl IH]; intros scores Hs; simpl; [done|].
  apply IH. destruct (votes d) as [vs|] eqn:Hvs.
  - rewrite (each_voteDoc_count_ballot _ _ d vs) by done.
    by apply Forall_balanced_count_ballot.
  - unfold each_voteDoc. by rewrite Hvs.
Qed.



(** The example of the specification: movies A, B, C and two ballots give
    the totals 2, -1, 1 and the ranking A, C, B. *)
Example tally_example :
  (λ s, (id (movie s), plus s, minus s, total s, voters s)) <$>
    tally [film "A"; film "B"; film "C"]
      [{| votes := Some (<["A" := 1]> (<["B" := -1]> ∅)); userName := Some "v1" |};
       {| votes := Some (<["A" := 1]> (<["C" := 1]> ∅)); userName := Some "v2" |}]
  = [("A", 2, 0, 2, [(Some "v1", 1); (Some "v2", 1)]);
     ("C", 1, 0, 1, [(Some "v2", 1)]);
     ("B", 0, 1, -1, [(Some "v1", -1)])].
Proof. vm_compute. reflexivity. Qed.

(** * VotingPhase: more on one vote *)

Lemma lookup_delete_zeros_keep o k : o !! k ≠ Some 0 → delete_zeros o !! k = o !! k.
Proof.
  intros Hk. apply option_eq. intros w. rewrite lookup_delete_zeros.
  split; [tauto|]. intros Hw. split; [done|]. congruence.
Qed.

Lemma newVote_values p cur t v : newVote p cur t = Some v → v = 0 ∨ v = weight t.
Proof. unfold newVote. destruct t; vote_cases; naive_solver. Qed.

Lemma newVote_Some_0 p cur t : newVote p cur t = Some 0 ↔ cur = weight t.
Proof. unfold newVote. destruct t; vote_cases; naive_solver. Qed.

Lemma remaining_used t b :
  remaining t b = limit t - Z.of_nat (used (weight t) b).
Proof. by destruct t. Qed.

(** X1. A vote touches the entry of the voted movie alone: the entry of any
    other movie is read back as it was (an entry of weight 0, which the
    handler purges on every write, set aside). *)
Theorem vote_keeps_other_entries u ms b c t k :
  k ≠ c → b !! k ≠ Some 0 → applyVote u ms b c t !! k = b !! k.
Proof.
  intros Hk H0. destruct u as [u|]; [|by rewrite applyVote_no_user].
  rewrite applyVote_eq. destruct (newVote _ _ _) as [v|]; [|done].
  rewrite lookup_delete_zeros_keep; rewrite lookup_insert_ne; done.
Qed.

Lemma vote_keeps_other_entries_witness :
  applyVote (Some alice) programme seven_plus_one_minus "h" type_plus !! "a"
  = seven_plus_one_minus !! "a".
Proof.
  assert ("a" ≠ "h") as Hk by discriminate.
  assert (seven_plus_one_minus !! "a" ≠ Some 0) as H0 by (vm_compute; discriminate).
  exact (vote_keeps_other_entries (Some alice) programme seven_plus_one_minus
           "h" type_plus "a" Hk H0).
Defined.

(** X2. Whenever [handleVote] writes, it writes the document of the signed-in
    user, under that user's display name, and the written map holds no entry
    of weight 0; the voted movie is left either with the weight of the vote
    or, where it held that weight already, with no entry. *)
Theorem handleVote_written p c t i d :
  handleVote p c t = Some (i, d) →
  ∃ u m, user p = Some u ∧ i = uid u ∧ userName d = displayName u ∧
         votes d = Some m ∧ (∀ k, m !! k ≠ Some 0) ∧
         (m !! c = Some (weight t) ∧ get_or_0 (userVotes p) c ≠ weight t ∨
          m !! c = None ∧ get_or_0 (userVotes p) c = weight t).
Proof.
  unfold handleVote. destruct (user p) as [u|]; [|done]. simpl.
  destruct (newVote _ _ _) as [v|] eqn:Hv; [|done].
  intros [= <- <-]. exists u, (delete_zeros (<[c:=v]> (userVotes p))). simpl.
  split_and!; [done..| |].
  - intros k. apply delete_zeros_no_zero.
  - destruct (newVote_values _ _ _ _ Hv) as [->| ->].
    + right. split; [|by apply newVote_Some_0 in Hv].
      rewrite delete_zeros_insert_0. apply eq_None_not_Some. intros [w Hw].
      apply lookup_delete_zeros in Hw as [Hw _]. by rewrite lookup_delete_eq in Hw.
    + left. split.
      * rewrite lookup_delete_zeros_keep; rewrite lookup_insert_eq; [done|].
        destruct t; discriminate.
      * intros Hcur. apply (newVote_Some_0 p) in Hcur. rewrite Hcur in Hv.
        destruct t; discriminate.
Qed.

Lemma handleVote_written_witness :
  ∃ u m, user (Home_VotingPhase (Some alice) programme seven_plus) = Some u ∧
         "uid-alice" = uid u ∧ Some "Alice" = displayName u ∧
         Some (delete_zeros (delete "a" seven_plus)) = Some m ∧
         (∀ k, m !! k ≠ Some 0) ∧
         (m !! "a" = Some (weight type_plus) ∧
            get_or_0 (userVotes (Home_VotingPhase (Some alice) programme seven_plus)) "a"
            ≠ weight type_plus ∨
          m !! "a" = None ∧
            get_or_0 (userVotes (Home_VotingPhase (Some alice) programme seven_plus)) "a"
            = weight type_plus).
Proof.
  assert (handleVote (Home_VotingPhase (Some alice) programme seven_plus) "a" type_plus
          = Some ("uid-alice",
                  {| votes := Some (delete_zeros (delete "a" seven_plus));
                     userName := Some "Alice" |})) as H
    by (vm_compute; reflexivity).
  exact (handleVote_written _ _ _ _ _ H).
Defined.

(** X3. Voting twice the same way on a movie restores the ballot: on a
    ballot free of zero entries, where the movie holds no vote, or holds
    the vote of that type with the count of that type within its limit, the
    second vote undoes the first. *)
Theorem vote_twice_restores u ms b c t :
  map_Forall (λ _ w, w ≠ 0) b →
  b !! c = None ∨ b !! c = Some (weight t) ∧ 0 ≤ remaining t b →
  applyVote (Some u) ms (applyVote (Some u) ms b c t) c t = b.
Proof.
  intros Hz Hc.
  assert (weight t ≠ 0) as Hw by (destruct t; discriminate).
  pose proof (remaining_used t) as Hrem.
  destruct Hc as [Hc|[Hc Hlim]].
  - assert (get_or_0 b c = 0) as Hcur by (unfold get_or_0; by rewrite Hc).
    rewrite (applyVote_eq u ms b c t).
    destruct (newVote _ _ _) as [v|] eqn:Hv.
    + assert (v = weight t) as ->.
      { destruct (newVote_values _ _ _ _ Hv) as [->|]; [|done].
        apply newVote_Some_0 in Hv. congruence. }
      rewrite delete_zeros_id by (by apply map_Forall_insert_2).
      rewrite applyVote_eq.
      assert (get_or_0 (<[c:=weight t]> b) c = weight t) as ->
        by (unfold get_or_0; by rewrite lookup_insert_eq).
      rewrite (proj2 (newVote_Some_0 _ _ _) eq_refl).
      rewrite delete_zeros_insert_0, delete_insert_eq, delete_id by done.
      by apply delete_zeros_id.
    + rewrite applyVote_eq. by rewrite Hv.
  - assert (get_or_0 b c = weight t) as Hcur by (unfold get_or_0; by rewrite Hc).
    rewrite (applyVote_eq u ms b c t), Hcur.
    rewrite (proj2 (newVote_Some_0 _ _ _) eq_refl).
    rewrite delete_zeros_insert_0.
    rewrite delete_zeros_id by (by apply map_Forall_delete).
    rewrite applyVote_eq.
    assert (get_or_0 (delete c b) c = 0) as ->
      by (unfold get_or_0; by rewrite lookup_delete_eq).
    assert (newVote (Home_VotingPhase (Some u) ms (delete c b)) 0 t = Some (weight t))
      as ->.
    { pose proof (used_delete (weight t) b c _ Hc) as Hd.
      unfold indicator in Hd. rewrite decide_True in Hd by done.
      specialize (Hrem b). rewrite Hrem in Hlim.
      unfold newVote. simpl. rewrite plusUsed_used, minusUsed_used.
      destruct t; simpl in *; vote_cases; try done; lia. }
    rewrite insert_delete_eq, insert_id by done. by apply delete_zeros_id.
Qed.

Lemma vote_twice_restores_witness :
  applyVote (Some alice) programme
    (applyVote (Some alice) programme seven_plus_one_minus "a" type_plus) "a" type_plus
  = seven_plus_one_minus.
Proof.
  assert (map_Forall (λ _ w, w ≠ 0) seven_plus_one_minus) as Hz by by_evaluation.
  assert (seven_plus_one_minus !! "a" = None ∨
          seven_plus_one_minus !! "a" = Some (weight type_plus) ∧
          0 ≤ remaining type_plus seven_plus_one_minus) as Hc
    by (right; split; [vm_compute; reflexivity|vm_compute; discriminate]).
  exact (vote_twice_restores alice programme seven_plus_one_minus "a" type_plus Hz Hc).
Defined.

Lemma weight_opposite t : weight (opposite t) = - weight t.
Proof. by destruct t. Qed.

(** X4. A movie that holds the opposite vote is switched over whatever the
    allowance: its entry takes the weight of the vote, the count of that
    weight grows by one and the count of the opposite weight drops by one. *)
Theorem vote_switches_sign u ms b c t :
  b !! c = Some (weight (opposite t)) →
  let b' := applyVote (Some u) ms b c t in
  b' = delete_zeros (<[c := weight t]> b) ∧
  b' !! c = Some (weight t) ∧
  used (weight t) b' = S (used (weight t) b) ∧
  S (used (weight (opposite t)) b') = used (weight (opposite t)) b.
Proof.
  intros Hc. cbv zeta.
  assert (weight t ≠ 0) as Hw by (destruct t; discriminate).
  assert (weight (opposite t) ≠ 0) as Hw' by (destruct t; discriminate).
  assert (get_or_0 b c = weight (opposite t)) as Hcur
    by (unfold get_or_0; by rewrite Hc).
  assert (applyVote (Some u) ms b c t = delete_zeros (<[c := weight t]> b)) as ->.
  { rewrite applyVote_eq, Hcur. unfold newVote.
    destruct t; simpl; by rewrite orb_true_r. }
  pose proof (used_vote (weight t) b c (weight t) Hw) as H1.
  pose proof (used_vote (weight (opposite t)) b c (weight t) Hw') as H2.
  rewrite Hcur in H1, H2. unfold indicator in H1, H2.
  rewrite decide_False, decide_True in H1 by (done || destruct t; discriminate).
  rewrite decide_True, decide_False in H2 by (done || destruct t; discriminate).
  split_and!; [done| |lia..].
  rewrite lookup_delete_zeros_keep; rewrite lookup_insert_eq; congruence.
Qed.

Lemma vote_switches_sign_witness :
  applyVote (Some alice) programme eight_plus "a" type_minus !! "a" = Some (-1) ∧
  used (weight type_minus) (applyVote (Some alice) programme eight_plus "a" type_minus)
  = S (used (weight type_minus) eight_plus).
Proof.
  assert (eight_plus !! "a" = Some (weight (opposite type_minus))) as Hc
    by (vm_compute; reflexivity).
  destruct (vote_switches_sign alice programme eight_plus "a" type_minus Hc)
    as (_ & Hl & Hu & _).
  split; [exact Hl|exact Hu].
Defined.

(** X5. On a ballot within the limits a signed-in user's click on a button
    that is not disabled always changes the ballot: the entry of the movie
    is not what it was. *)
Theorem enabled_button_changes_ballot u ms b c t :
  (plusUsed b ≤ 7)%nat → (minusUsed b ≤ 1)%nat →
  button_disabled (Home_VotingPhase (Some u) ms b) c t = false →
  applyVote (Some u) ms b c t !! c ≠ b !! c.
Proof.
  intros Hp Hm Hen. rewrite applyVote_eq.
  pose proof (get_or_0_weight b c (weight t)) as Hcw.
  assert (weight t ≠ 0) as Hw by (destruct t; discriminate).
  destruct (decide (get_or_0 b c = weight t)) as [Hcur|Hcur].
  - rewrite Hcur, (proj2 (newVote_Some_0 _ _ _) eq_refl), delete_zeros_insert_0.
    rewrite (proj1 (Hcw Hw) Hcur). intros H.
    apply lookup_delete_zeros in H as [H _]. by rewrite lookup_delete_eq in H.
  - assert (newVote (Home_VotingPhase (Some u) ms b) (get_or_0 b c) t = Some (weight t))
      as ->.
    { unfold button_disabled, newVote in *. simpl in *.
      destruct t; simpl in *; vote_cases; try done; lia. }
    rewrite lookup_delete_zeros_keep; rewrite lookup_insert_eq; [|congruence].
    intros H. symmetry in H. by apply Hcw in H.
Qed.

Lemma enabled_button_changes_ballot_witness :
  applyVote (Some alice) programme seven_plus_one_minus "a" type_plus !! "a"
  ≠ seven_plus_one_minus !! "a".
Proof.
  assert (plusUsed seven_plus_one_minus ≤ 7)%nat as Hp by (vm_compute; lia).
  assert (minusUsed seven_plus_one_minus ≤ 1)%nat as Hm by (vm_compute; lia).
  assert (button_disabled (Home_VotingPhase (Some alice) programme seven_plus_one_minus)
            "a" type_plus = false) as Hen by (vm_compute; reflexivity).
  exact (enabled_button_changes_ballot alice programme seven_plus_one_minus
           "a" type_plus Hp Hm Hen).
Defined.

(** X6. Behind a disabled button [handleVote] writes nothing, unless the
    movie holds the opposite vote: that one case apart, the handler and the
    [disabled] attribute agree. *)
Theorem disabled_button_noop u ms b c t :
  button_disabled (Home_VotingPhase u ms b) c t = true →
  get_or_0 b c ≠ weight (opposite t) →
  handleVote (Home_VotingPhase u ms b) c t = None ∧ applyVote u ms b c t = b.
Proof.
  intros Hdis Hcur.
  assert (handleVote (Home_VotingPhase u ms b) c t = None) as Hnone.
  { unfold handleVote. simpl. destruct u as [u|]; [|done].
    unfold button_disabled, newVote in *. simpl in *.
    destruct t; simpl in *; vote_cases; try done; lia. }
  split; [done|]. unfold applyVote. by rewrite Hnone.
Qed.

Lemma disabled_button_noop_witness :
  applyVote (Some alice) programme seven_plus_one_minus "i" type_minus
  = seven_plus_one_minus.
Proof.
  assert (button_disabled (Home_VotingPhase (Some alice) programme seven_plus_one_minus)
            "i" type_minus = true) as Hdis by (vm_compute; reflexivity).
  assert (get_or_0 seven_plus_one_minus "i" ≠ weight (opposite type_minus)) as Hcur
    by (vm_compute; discriminate).
  exact (proj2 (disabled_button_noop (Some alice) programme seven_plus_one_minus
                  "i" type_minus Hdis Hcur)).
Defined.

Lemma click_entries (Q : string → Prop) u ms b intent :
  (∀ k w, b !! k = Some w → Q k ∧ (w = 1 ∨ w = -1)) →
  (intent.1 ∈ (id <$> ms) → Q intent.1) →
  ∀ k w, click u ms b intent !! k = Some w → Q k ∧ (w = 1 ∨ w = -1).
Proof.
  intros Hb HQ k w. unfold click.
  destruct (bool_decide _ && _) eqn:Hgate; [|apply Hb].
  apply andb_prop in Hgate as [Hin _]. apply bool_decide_eq_true in Hin.
  destruct intent as [c t]. simpl in *.
  destruct u as [u|]; [|rewrite applyVote_no_user; apply Hb].
  rewrite applyVote_eq. destruct (newVote _ _ _) as [v|] eqn:Hv; [|apply Hb].
  rewrite lookup_delete_zeros. intros [Hk Hw].
  destruct (decide (k = c)) as [->|Hne].
  - rewrite lookup_insert_eq in Hk. injection Hk as <-. split; [auto|].
    destruct (newVote_values _ _ _ _ Hv) as [-> | ->]; [done|destruct t; auto].
  - rewrite lookup_insert_ne in Hk by done. by apply Hb.
Qed.

Lemma presses_snoc b ps p : presses b (ps ++ [p]) = press (presses b ps) p.
Proof. unfold presses. by rewrite foldl_snoc. Qed.

Lemma presses_entries_of ps k w :
  presses ∅ ps !! k = Some w →
  (∃ u ms t, (u, ms, (k, t)) ∈ ps ∧ k ∈ (id <$> ms)) ∧ (w = 1 ∨ w = -1).
Proof.
  revert k w. induction ps as [|[[u ms] [c t]] ps IH] using rev_ind; intros k w.
  - unfold presses. simpl. by rewrite lookup_empty.
  - rewrite presses_snoc. unfold press. simpl.
    apply (click_entries
             (λ k, ∃ u0 ms0 t0, (u0, ms0, (k, t0)) ∈ ps ++ [(u, ms, (c, t))]
                                ∧ k ∈ (id <$> ms0))).
    + intros k' w' Hk'. destruct (IH k' w' Hk') as [(u0 & ms0 & t0 & Hin & Hl) Hw].
      split; [|done]. exists u0, ms0, t0. split; [|done].
      apply elem_of_app. by left.
    + simpl. intros Hin. exists u, ms, t. split; [|done].
      apply elem_of_app. right. by apply list_elem_of_singleton.
Qed.

(** X7. Every entry of a ballot reached from the empty ballot by clicks on
    the vote buttons has the weight +1 or -1, and was planted by a click on
    the card of its movie, listed at the moment of that click; the movie
    may have left the list since. *)
Theorem presses_entries ps k w :
  presses ∅ ps !! k = Some w →
  (w = 1 ∨ w = -1) ∧ ∃ u ms t, (u, ms, (k, t)) ∈ ps ∧ k ∈ (id <$> ms).
Proof. intros H. apply presses_entries_of in H. tauto. Qed.

Lemma presses_entries_witness :
  ((-1) = 1 ∨ (-1) = -1) ∧
  ∃ u ms t, (u, ms, ("h", t)) ∈
              [(Some alice, programme, ("a", type_plus));
               (Some alice, programme, ("h", type_minus));
               (Some alice, film <$> ["a"; "b"], ("a", type_plus))]
            ∧ "h" ∈ (id <$> ms).
Proof.
  assert (presses ∅ [(Some alice, programme, ("a", type_plus));
                     (Some alice, programme, ("h", type_minus));
                     (Some alice, film <$> ["a"; "b"], ("a", type_plus))] !! "h"
          = Some (-1)) as H by (vm_compute; reflexivity).
  exact (presses_entries _ "h" (-1) H).
Defined.

(** X8. The allowance accounts for every vote: planting a vote on a movie
    that holds none spends one unit of the allowance of its type, taking a
    vote back frees one, and in both cases the allowance of the other type
    stays as it was. *)
Theorem allowance_after_vote u ms b c t :
  b !! c = None ∧ 0 < remaining t b ∨ b !! c = Some (weight t) →
  let b' := applyVote (Some u) ms b c t in
  remaining t b' = remaining t b + match b !! c with Some _ => 1 | None => -1 end ∧
  remaining (opposite t) b' = remaining (opposite t) b.
Proof.
  intros Hc. cbv zeta. rewrite !remaining_used, applyVote_eq.
  assert (weight t ≠ 0) as Hw by (destruct t; discriminate).
  assert (weight (opposite t) ≠ 0) as Hw' by (destruct t; discriminate).
  pose proof (λ v, used_vote (weight t) b c v Hw) as H1.
  pose proof (λ v, used_vote (weight (opposite t)) b c v Hw') as H2.
  destruct Hc as [[Hc Hrem]|Hc]; rewrite Hc.
  - assert (get_or_0 b c = 0) as Hcur by (unfold get_or_0; by rewrite Hc).
    rewrite Hcur in *.
    assert (newVote (Home_VotingPhase (Some u) ms b) 0 t = Some (weight t)) as ->.
    { rewrite remaining_used in Hrem. unfold newVote. simpl.
      rewrite plusUsed_used, minusUsed_used.
      destruct t; simpl in *; vote_cases; try done; lia. }
    specialize (H1 (weight t)). specialize (H2 (weight t)).
    unfold indicator in *.
    rewrite decide_False, decide_True in H1 by done.
    rewrite decide_False, decide_False in H2 by (destruct t; done).
    lia.
  - assert (get_or_0 b c = weight t) as Hcur by (unfold get_or_0; by rewrite Hc).
    rewrite Hcur in *. rewrite (proj2 (newVote_Some_0 _ _ _) eq_refl).
    specialize (H1 0). specialize (H2 0). unfold indicator in *.
    rewrite decide_True, decide_False in H1 by done.
    rewrite decide_False, decide_False in H2 by (destruct t; done).
    lia.
Qed.

Lemma allowance_after_vote_witness :
  remaining type_plus (applyVote (Some alice) programme seven_plus_one_minus "a" type_plus)
  = remaining type_plus seven_plus_one_minus + 1.
Proof.
  assert (seven_plus_one_minus !! "a" = None ∧ 0 < remaining type_plus seven_plus_one_minus ∨
          seven_plus_one_minus !! "a" = Some (weight type_plus)) as Hc
    by (right; vm_compute; reflexivity).
  exact (proj1 (allowance_after_vote alice programme seven_plus_one_minus
                  "a" type_plus Hc)).
Defined.

(** * ResultsPhase: what every score accounts for *)

Lemma Forall_find_and (P : ScoredMovie → Prop) k f scores :
  (∀ s, P s → P (f s)) → Forall P scores → Forall P (find_and k f scores).
Proof.
  intros Hf. induction 1 as [|s rest Hs Hrest IH]; simpl; [done|].
  case_match; constructor; auto.
Qed.

Lemma Forall_each_voteDoc (P : ScoredMovie → Prop) entries scores d :
  (∀ name value s, P s → P (count_vote name value s)) →
  Forall P scores → Forall P (each_voteDoc entries scores d).
Proof.
  intros Hf. unfold each_voteDoc. destruct (votes d) as [vs|]; [|done].
  generalize (entries vs) as l. intros l. revert scores.
  induction l as [|e l IH]; intros scores Hs; simpl; [done|].
  apply IH. unfold each_entry. apply Forall_find_and; [|done]. intros s. apply Hf.
Qed.

Lemma Forall_results (P : ScoredMovie → Prop) entries ms allVotes :
  (∀ m, P (initial_score m)) →
  (∀ name value s, P s → P (count_vote name value s)) →
  Forall P (results entries ms allVotes).
Proof.
  intros Hinit Hf. unfold results. rewrite Array_sort_Permutation. unfold scores_of.
  assert (Forall P (initial_score <$> ms)) as Hs by (by apply Forall_fmap, Forall_true).
  revert Hs. generalize (initial_score <$> ms) as scores.
  induction allVotes as [|d l IH]; intros scores Hs; simpl; [done|].
  apply IH. by apply Forall_each_voteDoc.
Qed.

Lemma sum_weights_app l1 l2 : sum_weights (l1 ++ l2) = sum_weights l1 + sum_weights l2.
Proof. induction l1 as [|v l1 IH]; simpl; [done|]. rewrite IH. lia. Qed.

Lemma scores_of_snoc entries ms allVotes d :
  scores_of entries ms (allVotes ++ [d])
  = each_voteDoc entries (scores_of entries ms allVotes) d.
Proof. unfold scores_of. by rewrite foldl_snoc. Qed.

Lemma Forall_count_ballot (P Q : ScoredMovie → Prop) name (vs : gmap string Z) scores :
  (∀ s, P s → Q s) →
  (∀ k v s, vs !! k = Some v → P s → Q (count_vote name v s)) →
  Forall P scores → Forall Q (count_ballot name vs scores).
Proof.
  intros HPQ Hcv Hs. revert vs Hcv.
  induction Hs as [|s rest Hs Hrest IH]; intros vs Hcv; simpl; constructor.
  - destruct (vs !! id (movie s)) as [v|] eqn:Hv; eauto.
  - apply IH. intros k v s' Hk. apply lookup_delete_Some in Hk as [_ Hk]. eauto.
Qed.

(** Each ballot adds at most one vote to a score, of a weight the ballot
    holds. *)
Lemma scores_of_bounded entries ms allVotes W :
  enumerates entries → weights_within W allVotes →
  Forall (λ s, Forall (λ v, Z.abs v.2 ≤ W) (voters s) ∧
               (length (voters s) ≤ length allVotes)%nat)
    (scores_of entries ms allVotes).
Proof.
  intros Hen. induction allVotes as [|d l IH] using rev_ind; intros Hall.
  - unfold scores_of. simpl. apply Forall_fmap, Forall_true. intros m. simpl.
    split; [constructor|lia].
  - apply Forall_app in Hall as [Hl Hd]. apply Forall_inv in Hd.
    specialize (IH Hl). rewrite scores_of_snoc, length_app. simpl.
    destruct (votes d) as [vs|] eqn:Hvs.
    + rewrite (each_voteDoc_count_ballot _ _ d vs) by done.
      eapply Forall_count_ballot; [| |exact IH].
      * intros s [H1 H2]. split; [done|lia].
      * intros k v s Hk [H1 H2]. simpl. split.
        -- apply Forall_app. split; [done|]. constructor; [|constructor].
           simpl. exact (Hd k v Hk).
        -- rewrite length_app. simpl. lia.
    + unfold each_voteDoc. rewrite Hvs. eapply Forall_impl; [exact IH|].
      intros s [H1 H2]. split; [done|lia].
Qed.

Lemma sum_weights_bound W l :
  Forall (λ v : option string * Z, Z.abs v.2 ≤ W) l →
  Z.abs (sum_weights l) ≤ W * Z.of_nat (length l).
Proof. induction 1 as [|v l Hv Hl IH]; simpl; lia. Qed.

Lemma scores_of_exact_sums entries ms allVotes W :
  enumerates entries → 0 ≤ W → weights_within W allVotes →
  W * Z.of_nat (length allVotes) ≤ exact_range →
  Forall exact_sums (scores_of entries ms allVotes).
Proof.
  intros Hen HW Hall Hn.
  eapply Forall_impl; [by apply (scores_of_bounded entries ms allVotes W)|].
  intros s [Hs Hlen] k.
  pose proof (sum_weights_bound W (take k (voters s)) (Forall_take _ k _ Hs)) as Hb.
  rewrite length_take in Hb. nia.
Qed.

(** X9. Every score of the tally accounts for its [voters] list: where the
    weights the ballots hold are integers of magnitude at most [W] and [W]
    times the number of ballots is at most 2^53, so that every value the
    additions of the tally pass through is an exact integer, [plus] is the
    number of voters listed with the weight 1 (the green names), [minus]
    the number of those listed with any other weight (the red names), and
    [total] is the sum of the listed weights. *)
Theorem results_account_for_voters entries ms allVotes W :
  enumerates entries → 0 ≤ W → weights_within W allVotes →
  W * Z.of_nat (length allVotes) ≤ exact_range →
  Forall (λ s,
    plus s = Z.of_nat (length (filter (λ v, v.2 = 1) (voters s))) ∧
    minus s = Z.of_nat (length (filter (λ v, v.2 ≠ 1) (voters s))) ∧
    total s = sum_weights (voters s) ∧
    plus s + minus s = Z.of_nat (length (voters s)) ∧
    (length (voters s) ≤ length allVotes)%nat ∧
    exact_sums s)
    (results entries ms allVotes).
Proof.
  intros Hen HW Hall Hn.
  assert (Forall (λ s, (length (voters s) ≤ length allVotes)%nat ∧ exact_sums s)
            (results entries ms allVotes)) as Hb.
  { unfold results. rewrite Array_sort_Permutation. apply Forall_and. split.
    - eapply Forall_impl; [by apply (scores_of_bounded entries ms allVotes W)|].
      by intros s [_ ?].
    - by apply (scores_of_exact_sums entries ms allVotes W). }
  assert (Forall (λ s,
            plus s = Z.of_nat (length (filter (λ v, v.2 = 1) (voters s))) ∧
            minus s = Z.of_nat (length (filter (λ v, v.2 ≠ 1) (voters s))) ∧
            total s = sum_weights (voters s) ∧
            plus s + minus s = Z.of_nat (length (voters s)))
            (results entries ms allVotes)) as Ha.
  { apply Forall_results.
    - intros m. simpl. done.
    - intros name value s (Hp & Hm & Ht & Hl). simpl.
      rewrite !filter_app, !length_app, sum_weights_app, !filter_cons, !filter_nil.
      simpl. destruct (Z.eqb_spec value 1); repeat case_decide; simpl; try done; lia. }
  pose proof (proj2 (Forall_and _ _) (conj Ha Hb)) as H.
  eapply Forall_impl; [exact H|]. simpl. intros s. tauto.
Qed.

Lemma results_account_for_voters_witness :
  Forall (λ s, total s = sum_weights (voters s))
    (tally programme [ballot_of_alice; ballot_of_bob]).
Proof.
  assert (enumerates map_to_list) as Hen by (intros o; reflexivity).
  assert (0 ≤ 1) as HW by lia.
  assert (weights_within 1 [ballot_of_alice; ballot_of_bob]) as Hall
    by (unfold weights_within; repeat (constructor; [simpl; by_evaluation|]);
        constructor).
  assert (1 * Z.of_nat (length [ballot_of_alice; ballot_of_bob]) ≤ exact_range) as Hn
    by by_evaluation.
  eapply Forall_impl;
    [exact (results_account_for_voters map_to_list programme
              [ballot_of_alice; ballot_of_bob] 1 Hen HW Hall Hn)|].
  simpl. intros s. tauto.
Defined.

(** * Array.prototype.sort: sorted input, related inputs *)

Lemma Array_sort_sorted l : StronglySorted descending l → Array_sort by_total l = l.
Proof.
  induction 1 as [|x l Hl IH Hx]; simpl; [done|].
  fold (Array_sort by_total l). rewrite IH.
  destruct Hx as [|y l' Hy _]; simpl; [done|].
  unfold by_total, descending in *. by destruct (Z.ltb_spec 0 (total y - total x)); [lia|].
Qed.

Lemma sort_insert_Forall2 (R : relation ScoredMovie) x y l1 l2 :
  (∀ a b, R a b → total a = total b) →
  R x y → Forall2 R l1 l2 →
  Forall2 R (sort_insert by_total x l1) (sort_insert by_total y l2).
Proof.
  intros HR Hxy. induction 1 as [|a b l1 l2 Hab Hl IH]; simpl.
  - by repeat constructor.
  - unfold by_total at 1 3. rewrite (HR _ _ Hxy), (HR _ _ Hab).
    case_match; by repeat constructor.
Qed.

Lemma Array_sort_Forall2 (R : relation ScoredMovie) l1 l2 :
  (∀ a b, R a b → total a = total b) →
  Forall2 R l1 l2 → Forall2 R (Array_sort by_total l1) (Array_sort by_total l2).
Proof.
  intros HR. induction 1 as [|a b l1 l2 Hab Hl IH]; simpl; [constructor|].
  by apply sort_insert_Forall2.
Qed.

(** * ResultsPhase: ballots that hold nothing *)

Lemma enumerates_empty entries : enumerates entries → entries ∅ = [].
Proof.
  intros Hen. apply Permutation_nil_r. rewrite (Hen ∅). by rewrite map_to_list_empty.
Qed.

Lemma each_voteDoc_nothing entries scores d :
  enumerates entries → votes d = None ∨ votes d = Some ∅ →
  each_voteDoc entries scores d = scores.
Proof.
  intros Hen [Hd|Hd]; unfold each_voteDoc; rewrite Hd; [done|].
  by rewrite enumerates_empty.
Qed.

(** X10. With no ballot cast the ranking is the movie list itself: where
    there is no ballot, or every ballot is without a [votes] field or holds
    an empty one, the tally lists the movies in the order given, each with
    zero counts and no voters. *)
Theorem results_without_votes entries ms allVotes :
  enumerates entries →
  Forall (λ d, votes d = None ∨ votes d = Some ∅) allVotes →
  results entries ms allVotes = initial_score <$> ms.
Proof.
  intros Hen Hall. unfold results.
  assert (scores_of entries ms allVotes = initial_score <$> ms) as ->.
  { unfold scores_of. generalize (initial_score <$> ms) as scores.
    induction Hall as [|d l Hd Hl IH]; intros scores; simpl; [done|].
    by rewrite each_voteDoc_nothing. }
  apply Array_sort_sorted.
  induction ms as [|m ms IH]; csimpl; constructor; [done|].
  apply Forall_fmap, Forall_true. intros m'. unfold descending. simpl. lia.
Qed.

Lemma results_without_votes_witness :
  tally programme [{| votes := None; userName := Some "Alice" |};
                   {| votes := Some ∅; userName := Some "Bob" |}]
  = initial_score <$> programme.
Proof.
  assert (enumerates map_to_list) as Hen by (intros o; reflexivity).
  assert (Forall (λ d, votes d = None ∨ votes d = Some ∅)
            [{| votes := None; userName := Some "Alice" |};
             {| votes := Some ∅; userName := Some "Bob" |}]) as Hall
    by (repeat constructor; simpl; auto).
  exact (results_without_votes map_to_list programme _ Hen Hall).
Defined.

(** * ResultsPhase: the voters of a movie *)

Lemma count_ballot_NoDup name vs scores :
  NoDup (id <$> (movie <$> scores)) →
  count_ballot name vs scores
  = (λ s, match vs !! id (movie s) with
          | Some value => count_vote name value s
          | None => s
          end) <$> scores.
Proof.
  revert vs. induction scores as [|s rest IH]; intros vs Hnd; csimpl; [done|].
  csimpl in Hnd. apply NoDup_cons in Hnd as [Hs Hnd]. f_equal.
  rewrite count_ballot_delete_unlisted by done. by apply IH.
Qed.

Lemma votes_for_snoc k allVotes d :
  votes_for k (allVotes ++ [d])
  = votes_for k allVotes ++ match ballot_entry k d with Some e => [e] | None => [] end.
Proof. unfold votes_for. rewrite omap_app. simpl. by destruct (ballot_entry k d). Qed.

Lemma scores_of_voters entries ms allVotes :
  enumerates entries → NoDup (id <$> ms) →
  Forall (λ s, voters s = votes_for (id (movie s)) allVotes)
    (scores_of entries ms allVotes).
Proof.
  intros Hen Hnd. induction allVotes as [|d l IH] using rev_ind.
  - unfold scores_of. simpl. by apply Forall_fmap, Forall_true.
  - rewrite scores_of_snoc. destruct (votes d) as [vs|] eqn:Hd.
    + rewrite (each_voteDoc_count_ballot _ _ d vs) by done.
      rewrite count_ballot_NoDup by (by rewrite fmap_movie_scores_of).
      apply Forall_fmap. eapply Forall_impl; [exact IH|].
      intros s Hs. simpl. rewrite votes_for_snoc. unfold ballot_entry.
      rewrite Hd. simpl in *.
      destruct (vs !! id (movie s)) eqn:Hv; simpl; rewrite Hv; simpl.
      * by rewrite Hs.
      * by rewrite app_nil_r.
    + unfold each_voteDoc. rewrite Hd.
      eapply Forall_impl; [exact IH|].
      intros s Hs. rewrite votes_for_snoc. unfold ballot_entry. rewrite Hd.
      simpl. by rewrite app_nil_r.
Qed.

(** X11. Where the listed movies have distinct ids, the [voters] of each
    score of the tally are exactly the ballots that hold an entry for the
    movie, each with the weight it holds, in the order of the ballots. *)
Theorem results_voters entries ms allVotes :
  enumerates entries → NoDup (id <$> ms) →
  Forall (λ s, voters s = votes_for (id (movie s)) allVotes)
    (results entries ms allVotes).
Proof.
  intros Hen Hnd. unfold results. rewrite Array_sort_Permutation.
  by apply scores_of_voters.
Qed.

Lemma results_voters_witness :
  Forall (λ s, voters s = votes_for (id (movie s)) [ballot_of_alice; ballot_of_bob])
    (tally programme [ballot_of_alice; ballot_of_bob]).
Proof.
  assert (enumerates map_to_list) as Hen by (intros o; reflexivity).
  assert (NoDup (id <$> programme)) as Hnd by by_evaluation.
  exact (results_voters map_to_list programme [ballot_of_alice; ballot_of_bob] Hen Hnd).
Defined.

(** * ResultsPhase: the order of the ballots, the names on them *)

Lemma scores_of_accounted entries ms allVotes :
  Forall accounted (scores_of entries ms allVotes).
Proof.
  unfold scores_of.
  assert (Forall accounted (initial_score <$> ms)) as Hs
    by (by apply Forall_fmap, Forall_true).
  revert Hs. generalize (initial_score <$> ms) as scores.
  induction allVotes as [|d l IH]; intros scores Hs; simpl; [done|].
  apply IH. apply Forall_each_voteDoc; [|done].
  intros name value s (Hp & Hm & Ht). unfold accounted. simpl.
  rewrite !filter_app, !length_app, sum_weights_app, !filter_cons, !filter_nil.
  simpl. destruct (Z.eqb_spec value 1); repeat case_decide; simpl; try done; lia.
Qed.

Lemma sum_weights_Permutation l1 l2 : l1 ≡ₚ l2 → sum_weights l1 = sum_weights l2.
Proof. induction 1; simpl; lia. Qed.

Lemma accounted_same_score s s' :
  accounted s → accounted s' → movie s = movie s' → voters s ≡ₚ voters s' →
  same_score s s'.
Proof.
  intros (Hp & Hm & Ht) (Hp' & Hm' & Ht') Hmov Hv. unfold same_score.
  rewrite Hp, Hp', Hm, Hm', Ht, Ht'. split_and!; [done| | | |done].
  - by rewrite Hv.
  - by rewrite Hv.
  - by apply sum_weights_Permutation.
Qed.

Lemma Forall2_same_movies (R : relation ScoredMovie) (P1 P2 : ScoredMovie → Prop) l1 l2 :
  (∀ a b, P1 a → P2 b → movie a = movie b → R a b) →
  movie <$> l1 = movie <$> l2 → Forall P1 l1 → Forall P2 l2 → Forall2 R l1 l2.
Proof.
  intros HR. revert l2. induction l1 as [|a l1 IH]; intros [|b l2] Hm H1 H2;
    csimpl in *; try done; try (by constructor).
  injection Hm as Hab Hm. apply Forall_cons in H1 as [Ha H1].
  apply Forall_cons in H2 as [Hb H2]. constructor; auto.
Qed.

(** X12. The order in which the ballots arrive shows in the order of the
    [voters] lists alone: where the listed movies have distinct ids, the
    weights are integers of magnitude at most [W] and [W] times the number of
    ballots is at most 2^53, so that the additions are exact in either
    order, the tally of the same ballots in another order ranks the same
    movies at the same places with the same [plus], [minus] and [total], and
    each [voters] list holds the same entries. *)
Theorem results_ballot_order entries ms allVotes allVotes' W :
  enumerates entries → NoDup (id <$> ms) → allVotes ≡ₚ allVotes' →
  0 ≤ W → weights_within W allVotes →
  W * Z.of_nat (length allVotes) ≤ exact_range →
  Forall2 same_score (results entries ms allVotes) (results entries ms allVotes') ∧
  Forall exact_sums (results entries ms allVotes) ∧
  Forall exact_sums (results entries ms allVotes').
Proof.
  intros Hen Hnd Hperm HW Hall Hn. split_and!.
  - unfold results.
    apply Array_sort_Forall2; [by intros a b (_ & _ & _ & ? & _)|].
    apply (Forall2_same_movies _
             (λ s, accounted s ∧ voters s = votes_for (id (movie s)) allVotes)
             (λ s, accounted s ∧ voters s = votes_for (id (movie s)) allVotes')).
    + intros a b [Ha Hva] [Hb Hvb] Hab. apply accounted_same_score; [done..|].
      rewrite Hva, Hvb, Hab. unfold votes_for. by rewrite Hperm.
    + by rewrite !fmap_movie_scores_of.
    + apply Forall_and. split; [apply scores_of_accounted|by apply scores_of_voters].
    + apply Forall_and. split; [apply scores_of_accounted|by apply scores_of_voters].
  - unfold results. rewrite Array_sort_Permutation.
    by apply (scores_of_exact_sums entries ms allVotes W).
  - unfold results. rewrite Array_sort_Permutation.
    apply (scores_of_exact_sums entries ms allVotes' W); [done..| |].
    + unfold weights_within. by rewrite <-Hperm.
    + by rewrite <-Hperm.
Qed.

Lemma results_ballot_order_witness :
  Forall2 same_score (tally programme [ballot_of_alice; ballot_of_bob])
    (tally programme [ballot_of_bob; ballot_of_alice]).
Proof.
  assert (enumerates map_to_list) as Hen by (intros o; reflexivity).
  assert (NoDup (id <$> programme)) as Hnd by by_evaluation.
  assert ([ballot_of_alice; ballot_of_bob] ≡ₚ [ballot_of_bob; ballot_of_alice]) as Hp
    by apply Permutation_swap.
  assert (0 ≤ 1) as HW by lia.
  assert (weights_within 1 [ballot_of_alice; ballot_of_bob]) as Hall
    by (unfold weights_within; repeat (constructor; [simpl; by_evaluation|]);
        constructor).
  assert (1 * Z.of_nat (length [ballot_of_alice; ballot_of_bob]) ≤ exact_range) as Hn
    by by_evaluation.
  exact (proj1 (results_ballot_order map_to_list programme _ _ 1 Hen Hnd Hp HW Hall Hn)).
Defined.

Lemma find_and_Forall2 (R : relation ScoredMovie) k f g l1 l2 :
  (∀ a b, R a b → id (movie a) = id (movie b)) →
  (∀ a b, R a b → R (f a) (g b)) →
  Forall2 R l1 l2 → Forall2 R (find_and k f l1) (find_and k g l2).
Proof.
  intros Hid Hfg. induction 1 as [|a b l1 l2 Hab Hl IH]; simpl; [constructor|].
  rewrite (Hid _ _ Hab). case_match; constructor; auto.
Qed.

Lemma same_counts_count_vote name name' value a b :
  same_counts a b → same_counts (count_vote name value a) (count_vote name' value b).
Proof.
  intros (Hid & Hp & Hm & Ht & Hv). unfold same_counts. simpl.
  rewrite Hp, Hm, Ht, !fmap_app, Hv. done.
Qed.

Lemma each_voteDoc_same_counts entries l1 l2 d d' :
  votes d = votes d' → Forall2 same_counts l1 l2 →
  Forall2 same_counts (each_voteDoc entries l1 d) (each_voteDoc entries l2 d').
Proof.
  intros Hd. unfold each_voteDoc. rewrite <-Hd. destruct (votes d) as [vs|]; [|done].
  generalize (entries vs) as l. intros l. revert l1 l2.
  induction l as [|e l IH]; intros l1 l2 Hl; simpl; [done|].
  apply IH. unfold each_entry. apply find_and_Forall2; [|intros a b|done].
  - by intros a b (? & _).
  - apply same_counts_count_vote.
Qed.

Lemma foldl_each_voteDoc_same_counts entries l1 l2 allVotes :
  Forall2 same_counts l1 l2 →
  Forall2 same_counts (foldl (each_voteDoc entries) l1 allVotes)
    (foldl (each_voteDoc entries) l2 allVotes).
Proof.
  revert l1 l2. induction allVotes as [|d l IH]; intros l1 l2 Hl; simpl; [done|].
  apply IH. by apply each_voteDoc_same_counts.
Qed.

(** X13. Renaming changes names and nothing else in the tally. After
    [handleUpdateName], with the votes document of the user rewritten in
    place, or created where the user had none, the tally ranks the movies
    of the same ids at the same places with the same [plus], [minus] and
    [total], and the same weights stand in each [voters] list. *)
Theorem tally_after_rename entries u name ms voteDoc before after ms' voteDoc' :
  handleUpdateName u name ms voteDoc = Some (ms', voteDoc') →
  Forall2 same_counts
    (results entries ms' (before ++ voteDoc' :: after))
    (results entries ms (before ++ option_list voteDoc ++ after)).
Proof.
  unfold handleUpdateName. destruct u as [u|]; [|done]. intros [= <- <-].
  unfold results. apply Array_sort_Forall2; [by intros a b (_ & _ & _ & ? & _)|].
  unfold scores_of. rewrite !foldl_app.
  assert (Forall2 same_counts (initial_score <$> rename_movies (uid u) name ms)
            (initial_score <$> ms)) as Hinit.
  { unfold rename_movies. rewrite <-list_fmap_compose.
    apply Forall2_fmap, Forall_Forall2_diag, Forall_true. intros m.
    unfold same_counts. simpl. by case_bool_decide. }
  apply (foldl_each_voteDoc_same_counts entries _ _ before) in Hinit.
  destruct voteDoc as [d|]; simpl.
  - apply foldl_each_voteDoc_same_counts. by apply each_voteDoc_same_counts.
  - by apply foldl_each_voteDoc_same_counts.
Qed.

Lemma tally_after_rename_witness :
  Forall2 same_counts
    (tally (rename_movies "uid-alice" "Alicia" programme)
       [rename_voteDoc "Alicia" (Some ballot_of_alice); ballot_of_bob])
    (tally programme [ballot_of_alice; ballot_of_bob]).
Proof.
  assert (handleUpdateName (Some alice) "Alicia" programme (Some ballot_of_alice)
          = Some (rename_movies "uid-alice" "Alicia" programme,
                  rename_voteDoc "Alicia" (Some ballot_of_alice))) as H
    by reflexivity.
  exact (tally_after_rename map_to_list (Some alice) "Alicia" programme
           (Some ballot_of_alice) [] [ballot_of_bob] _ _ H).
Defined.

(** * String.prototype.trim *)

Lemma trimStart_split s :
  ∃ p, s = p ++ trimStart s ∧ Forall (λ c, is_white_space c = true) p.
Proof.
  induction s as [|c s (p & Hs & Hp)]; simpl; [by exists []|].
  destruct (is_white_space c) eqn:Hc.
  - exists (c :: p). split; [by rewrite Hs at 1|by constructor].
  - by exists [].
Qed.

Lemma trimStart_nil s : trimStart s = [] ↔ Forall (λ c, is_white_space c = true) s.
Proof.
  induction s as [|c s IH]; simpl; [done|].
  destruct (is_white_space c) eqn:Hc.
  - rewrite IH. split; [by constructor|by inversion 1].
  - split; [done|]. inversion 1; congruence.
Qed.

Lemma trimStart_head c s : trimStart s = c :: s → False.
Proof.
  destruct (trimStart_split s) as (p & Hs & _). intros H.
  apply (f_equal length) in Hs. rewrite length_app, H in Hs. simpl in Hs. lia.
Qed.

Lemma trimStart_fixed s :
  trimStart s = s ↔ match s with [] => True | c :: _ => is_white_space c = false end.
Proof.
  destruct s as [|c s]; simpl; [done|].
  destruct (is_white_space c); split; try done.
  intros H. by apply trimStart_head in H.
Qed.

Lemma trimStart_idemp s : trimStart (trimStart s) = trimStart s.
Proof.
  induction s as [|c s IH]; simpl; [done|].
  destruct (is_white_space c) eqn:Hc; [done|]. simpl. by rewrite Hc.
Qed.

Lemma trimEnd_split s :
  ∃ q, s = trimEnd s ++ q ∧ Forall (λ c, is_white_space c = true) q.
Proof.
  destruct (trimStart_split (reverse s)) as (p & Hs & Hp).
  exists (reverse p). split; [|by apply Forall_reverse].
  unfold trimEnd. rewrite <-reverse_app, <-Hs. by rewrite reverse_involutive.
Qed.

Lemma trimEnd_idemp s : trimEnd (trimEnd s) = trimEnd s.
Proof. unfold trimEnd. by rewrite reverse_involutive, trimStart_idemp. Qed.

Lemma trimStart_trimEnd s : trimStart s = s → trimStart (trimEnd s) = trimEnd s.
Proof.
  intros Hs. destruct (trimEnd_split s) as (q & Hq & _).
  apply trimStart_fixed. destruct (trimEnd s) as [|c r]; [done|].
  rewrite Hq in Hs. by apply trimStart_fixed in Hs.
Qed.

Lemma trim_idemp s : trim (trim s) = trim s.
Proof.
  unfold trim. rewrite trimStart_trimEnd by apply trimStart_idemp.
  apply trimEnd_idemp.
Qed.

Lemma trim_split s :
  ∃ p q, s = p ++ trim s ++ q ∧
         Forall (λ c, is_white_space c = true) p ∧
         Forall (λ c, is_white_space c = true) q.
Proof.
  destruct (trimStart_split s) as (p & Hs & Hp).
  destruct (trimEnd_split (trimStart s)) as (q & Ht & Hq).
  exists p, q. split; [|done]. unfold trim. by rewrite <-Ht.
Qed.

Lemma trim_nil s : trim s = [] ↔ Forall (λ c, is_white_space c = true) s.
Proof.
  split.
  - intros H. destruct (trim_split s) as (p & q & Hs & Hp & Hq).
    rewrite H in Hs. rewrite Hs. simpl. by apply Forall_app.
  - intros H. unfold trim. rewrite (proj2 (trimStart_nil s) H). done.
Qed.

Lemma elem_of_trim x s : x ∈ trim s → x ∈ s.
Proof.
  intros Hx. destruct (trim_split s) as (p & q & Hs & _). rewrite Hs.
  rewrite !elem_of_app. auto.
Qed.

Lemma length_trimStart s : (length (trimStart s) ≤ length s)%nat.
Proof.
  destruct (trimStart_split s) as (p & Hs & _).
  apply (f_equal length) in Hs. rewrite length_app in Hs. lia.
Qed.

Lemma length_trimEnd s : (length (trimEnd s) ≤ length s)%nat.
Proof.
  destruct (trimEnd_split s) as (q & Hs & _).
  apply (f_equal length) in Hs. rewrite length_app in Hs. lia.
Qed.

Lemma trim_fixed_head c s : trim (c :: s) = c :: s → is_white_space c = false.
Proof.
  intros H. destruct (is_white_space c) eqn:Hc; [|done]. exfalso.
  unfold trim in H. simpl in H. rewrite Hc in H.
  pose proof (length_trimEnd (trimStart s)) as H1.
  pose proof (length_trimStart s) as H2.
  rewrite H in H1. simpl in H1. lia.
Qed.

(** * String.prototype.split *)

Lemma split_nonempty sep s : split sep s ≠ [].
Proof.
  destruct s as [|c s]; simpl; [done|].
  destruct (c =? sep)%N; [done|]. by destruct (split sep s).
Qed.

Lemma split_app_sep sep a b :
  split sep (a ++ sep :: b) = split sep a ++ split sep b.
Proof.
  induction a as [|c a IH]; simpl.
  - by rewrite N.eqb_refl.
  - destruct (c =? sep)%N; [by rewrite IH|]. rewrite IH.
    pose proof (split_nonempty sep a). by destruct (split sep a).
Qed.

Lemma split_no_sep sep s : sep ∉ s → split sep s = [s].
Proof.
  induction s as [|c s IH]; simpl; [done|].
  intros [Hc Hs]%not_elem_of_cons.
  destruct (N.eqb_spec c sep); [congruence|]. by rewrite IH.
Qed.

Lemma split_parts sep s :
  Forall (λ part, (sep ∉ part) ∧ ∀ x, x ∈ part → x ∈ s) (split sep s).
Proof.
  induction s as [|c s IH]; simpl.
  - constructor; [|done]. split; [apply not_elem_of_nil|done].
  - assert (Forall (λ part, (sep ∉ part) ∧ ∀ x, x ∈ part → x ∈ c :: s) (split sep s))
      as IH'.
    { eapply Forall_impl; [exact IH|]. intros part [H1 H2].
      split; [done|]. intros y Hy. right. auto. }
    destruct (N.eqb_spec c sep) as [->|Hne].
    + constructor; [|done]. split; [apply not_elem_of_nil|].
      intros y Hy. by apply elem_of_nil in Hy.
    + destruct (split sep s) as [|part parts].
      * constructor; [|done]. split.
        -- intros Hin. apply list_elem_of_singleton in Hin. congruence.
        -- intros y Hy. apply list_elem_of_singleton in Hy as ->. left.
      * apply Forall_cons in IH' as [[H1 H2] IH']. constructor; [|done]. split.
        -- intros Hin. apply elem_of_cons in Hin as [Hin|Hin]; [congruence|done].
        -- intros y Hy. apply elem_of_cons in Hy as [->|Hy]; [left|auto].
Qed.

(** * AdminPanel: the import *)

Lemma import_line_blank u line :
  Forall (λ c, is_white_space c = true) line → import_line u line = None.
Proof. intros H. unfold import_line. by rewrite (proj2 (trim_nil line) H). Qed.

(** X14. The lines of a batch are imported one by one: the import of two
    texts joined by a line feed is the import of the first followed by the
    import of the second. In particular a trailing line feed, an empty line
    or a line of white space adds no movie. *)
Theorem handleImport_lines u a b :
  handleImport u (a ++ 10%N :: b) = handleImport u a ++ handleImport u b ∧
  (Forall (λ c, is_white_space c = true) b → handleImport u (a ++ 10%N :: b) = handleImport u a).
Proof.
  assert (handleImport u (a ++ 10%N :: b) = handleImport u a ++ handleImport u b) as Happ.
  { destruct u as [u|]; simpl; [|done]. by rewrite split_app_sep, omap_app. }
  split; [done|]. intros Hb. rewrite Happ.
  assert (handleImport u b = []) as ->; [|by rewrite app_nil_r].
  destruct u as [u|]; simpl; [|done].
  assert (Forall (λ line, Forall (λ c, is_white_space c = true) line) (split 10 b)) as Hl.
  { eapply Forall_impl; [apply split_parts|]. intros part [_ Hpart].
    apply Forall_forall. intros x Hx. apply Hpart in Hx.
    by apply (proj1 (Forall_forall _ _) Hb). }
  induction Hl as [|line lines Hline _ IH]; simpl; [done|].
  by rewrite import_line_blank.
Qed.

Lemma handleImport_lines_witness :
  handleImport (Some alice) (units "Matrix" ++ 10%N :: units "  ")
  = handleImport (Some alice) (units "Matrix").
Proof.
  assert (Forall (λ c, is_white_space c = true) (units "  ")) as Hb
    by (repeat constructor).
  exact (proj2 (handleImport_lines (Some alice) (units "Matrix") (units "  ")) Hb).
Defined.

Lemma clean_nil : clean [].
Proof. split_and!; [done|apply not_elem_of_nil..]. Qed.

Lemma clean_unknown_film : clean unknown_film.
Proof. split_and!; [by vm_compute|by_evaluation..]. Qed.

Lemma clean_admin_import : clean admin_import.
Proof. split_and!; [by vm_compute|by_evaluation..]. Qed.

Lemma trim_or_clean part fallback :
  clean fallback →
  (∀ p, part = Some p → (9%N ∉ p) ∧ (10%N ∉ p)) →
  clean (trim_or part fallback).
Proof.
  intros Hf Hp. unfold trim_or. destruct part as [p|]; [|done].
  destruct (Hp p eq_refl) as [H9 H10].
  destruct (trim p) as [|c t] eqn:Ht; [done|]. rewrite <-Ht.
  split_and!; [apply trim_idemp|..]; intros Hin%elem_of_trim; done.
Qed.

Lemma trim_or_nonempty part fallback : fallback ≠ [] → trim_or part fallback ≠ [].
Proof.
  intros Hf. unfold trim_or. destruct part as [p|]; [|done].
  by destruct (trim p).
Qed.

(** X15. Whatever the text of a batch, every movie the import hands to the
    store has a title and a nominator that are not empty, its four fields
    are trimmed and hold neither a tab nor a line feed, and it is filed
    under the uid of the importing user. *)
Theorem handleImport_fields u csvText :
  Forall (λ m,
    imported_title m ≠ [] ∧ imported_nominator m ≠ [] ∧
    clean (imported_title m) ∧ clean (imported_link m) ∧
    clean (imported_nominator m) ∧ clean (imported_comment m) ∧
    imported_nominatorId m = uid u)
    (handleImport (Some u) csvText).
Proof.
  simpl. apply Forall_forall. intros m Hm.
  apply list_elem_of_omap in Hm as (line & Hline & Himp).
  pose proof (split_parts 10 csvText) as Hlines.
  apply (proj1 (Forall_forall _ _) Hlines) in Hline as [H10 _].
  unfold import_line in Himp. destruct (trim line) as [|c0 t0]; [done|].
  destruct (1 <=? length (split 9 line))%nat; [|done].
  injection Himp as <-. simpl.
  assert (∀ i p, split 9 line !! i = Some p → (9%N ∉ p) ∧ (10%N ∉ p)) as Hparts.
  { intros i p Hp. apply list_elem_of_lookup_2 in Hp.
    pose proof (split_parts 9 line) as H9.
    apply (proj1 (Forall_forall _ _) H9) in Hp as [Hp1 Hp2].
    split; [done|]. intros Hin. apply Hp2 in Hin. done. }
  split_and!; [by apply trim_or_nonempty..| | | | |done];
    apply trim_or_clean; eauto using clean_nil, clean_unknown_film, clean_admin_import.
Qed.

Lemma trim_or_clean_field field fallback :
  trim field = field → (field = [] → fallback = []) →
  trim_or (Some field) fallback = field.
Proof.
  intros Ht Hf. unfold trim_or. rewrite Ht.
  destruct field; [by rewrite Hf|done].
Qed.

Lemma split_export_line m :
  (9%N ∉ imported_title m) → (9%N ∉ imported_link m) →
  (9%N ∉ imported_nominator m) → (9%N ∉ imported_comment m) →
  split 9 (export_line m)
  = [imported_title m; imported_link m; imported_nominator m; imported_comment m].
Proof.
  intros H1 H2 H3 H4. unfold export_line.
  rewrite !split_app_sep, !split_no_sep by done. done.
Qed.

Lemma import_export_line u m :
  importable m → imported_nominatorId m = uid u →
  import_line u (export_line m) = Some m.
Proof.
  intros ((Ht1 & Ht9 & Ht10) & (Hl1 & Hl9 & Hl10) & (Hn1 & Hn9 & Hn10) &
          (Hc1 & Hc9 & Hc10) & Ht & Hn) Hid.
  unfold import_line.
  destruct (trim (export_line m)) as [|c0 t0] eqn:Hline.
  { exfalso. apply trim_nil in Hline. unfold export_line in Hline.
    destruct (imported_title m) as [|c t] eqn:Htitle; [done|].
    apply trim_fixed_head in Ht1. apply Forall_inv in Hline. congruence. }
  rewrite split_export_line by done. cbn -[trim_or].
  rewrite !trim_or_clean_field by done.
  destruct m. simpl in *. by rewrite Hid.
Qed.

Lemma handleImport_export_line u m :
  importable m → imported_nominatorId m = uid u →
  handleImport (Some u) (export_line m) = [m].
Proof.
  intros Hm Hid. simpl.
  assert (10%N ∉ export_line m) as H10.
  { destruct Hm as ((_ & _ & ?) & (_ & _ & ?) & (_ & _ & ?) & (_ & _ & ?) & _).
    unfold export_line. rewrite !elem_of_app, !elem_of_cons, !elem_of_app,
      !elem_of_cons, !elem_of_app, !elem_of_cons. intros Hin.
    destruct Hin as [?|[?|[?|[?|[?|[?|?]]]]]]; done. }
  rewrite split_no_sep by done. simpl. by rewrite import_export_line.
Qed.

(** X16. The import reads back what a tab-separated export writes: for
    movies of clean fields with a title and a nominator, filed under the
    importing user, the import of their lines, one movie a line with the
    fields in the order title, link, nominator, comment, is that list of
    movies. *)
Theorem handleImport_export u ms :
  Forall (λ m, importable m ∧ imported_nominatorId m = uid u) ms →
  handleImport (Some u) (join_lines (export_line <$> ms)) = ms.
Proof.
  induction 1 as [|m ms [Hm Hid] Hms IH]; [done|].
  destruct ms as [|m' ms'].
  - by apply handleImport_export_line.
  - change (join_lines (export_line <$> m :: m' :: ms'))
      with (export_line m ++ 10%N :: join_lines (export_line <$> m' :: ms')).
    rewrite (proj1 (handleImport_lines (Some u) _ _)), IH.
    by rewrite handleImport_export_line.
Qed.

Lemma handleImport_export_witness :
  handleImport (Some alice) (join_lines (export_line <$> batch)) = batch.
Proof.
  assert (Forall (λ m, importable m ∧ imported_nominatorId m = uid alice) batch) as H.
  { repeat constructor; try (by vm_compute); try by_evaluation. }
  exact (handleImport_export alice batch H).
Defined.

(** * Home: phases and names *)

(** X17. For each of the three phases the admin panel can set, the page
    renders exactly the component of that phase, the one the header names,
    also after the phase has gone through the state document. Any other
    phase leaves the body of the page empty under a header that names the
    results phase. A state document without the field, or with the empty
    string in it, reads as "nomination"; any other string is taken as it is,
    and a missing document leaves the phase as it was. *)
Theorem phase_rendering phase :
  (phase ∈ phase_buttons → main phase = [header phase]) ∧
  (phase ∉ phase_buttons → main phase = [] ∧ header phase = Results) ∧
  (∀ previous,
     onConfigSnapshot previous (Some None) = "nomination" ∧
     onConfigSnapshot previous (Some (Some "")) = "nomination" ∧
     onConfigSnapshot previous None = previous ∧
     (phase ≠ "" → onConfigSnapshot previous (Some (Some phase)) = phase)) ∧
  (∀ previous currentPhase,
     onConfigSnapshot previous (Some currentPhase) ≠ "" ∧
     (phase ∈ phase_buttons →
      main (onConfigSnapshot previous (Some (Some phase))) = [header phase])).
Proof.
  unfold phase_buttons, main, header.
  assert (phase ∈ ["nomination"; "voting"; "results"]
          ↔ phase = "nomination" ∨ phase = "voting" ∨ phase = "results") as Hin.
  { rewrite !elem_of_cons, elem_of_nil. tauto. }
  split_and!.
  - rewrite Hin. intros [->|[->| ->]]; reflexivity.
  - rewrite Hin. intros Hout.
    destruct (String.eqb_spec phase "nomination"); [tauto|].
    destruct (String.eqb_spec phase "voting"); [tauto|].
    destruct (String.eqb_spec phase "results"); [tauto|done].
  - intros previous. split_and!; [done..|]. intros Hne. simpl.
    by destruct (String.eqb_spec phase "").
  - intros previous currentPhase. split.
    + destruct currentPhase as [p|]; simpl; [|done].
      by destruct (String.eqb_spec p "").
    + rewrite Hin. intros [->|[->| ->]]; reflexivity.
Qed.

Lemma phase_rendering_witness :
  main "voting" = [Voting] ∧ (main "closed" = [] ∧ header "closed" = Results).
Proof.
  assert ("voting" ∈ phase_buttons) as Hin by by_evaluation.
  assert ("closed" ∉ phase_buttons) as Hout by by_evaluation.
  split.
  - exact (proj1 (phase_rendering "voting") Hin).
  - exact (proj1 (proj2 (phase_rendering "closed")) Hout).
Defined.

Lemma nominatorId_rename_movies userId name ms :
  nominatorId <$> rename_movies userId name ms = nominatorId <$> ms.
Proof.
  unfold rename_movies. rewrite <-list_fmap_compose. apply list_fmap_ext.
  intros i m _. simpl. by destruct (bool_decide _).
Qed.

(** X18. Who may delete a movie: nobody who is not signed in; among the
    users who do not hold the admin address only the nominator, so two of
    them who may delete the same movie are the same user; and renaming, which
    rewrites nominator names, changes for no user what may be deleted. *)
Theorem deletion_rights adminEmail :
  (∀ email m, canDelete adminEmail None email m = false) ∧
  (∀ u1 u2 email1 email2 m,
     email1 ≠ Some adminEmail → email2 ≠ Some adminEmail →
     canDelete adminEmail (Some u1) email1 m = true →
     canDelete adminEmail (Some u2) email2 m = true →
     uid u1 = uid u2 ∧ nominatorId m = uid u1) ∧
  (∀ u email userId name ms,
     canDelete adminEmail u email <$> rename_movies userId name ms
     = canDelete adminEmail u email <$> ms).
Proof.
  split_and!.
  - done.
  - intros u1 u2 email1 email2 m H1 H2. unfold canDelete.
    rewrite (bool_decide_eq_false_2 _ H1), (bool_decide_eq_false_2 _ H2).
    intros Hd1%bool_decide_eq_true Hd2%bool_decide_eq_true. split; congruence.
  - intros u email userId name ms.
    assert (∀ l, canDelete adminEmail u email <$> l
                 = (λ n, match u with
                         | None => false
                         | Some u =>
                             if bool_decide (email = Some adminEmail) then true
                             else bool_decide (n = uid u)
                         end) <$> (nominatorId <$> l)) as Hc
      by (intros l; by rewrite <-list_fmap_compose).
    by rewrite !Hc, nominatorId_rename_movies.
Qed.

(** * From the clicks to the tally *)

Lemma sum_of_Permutation f l1 l2 : l1 ≡ₚ l2 → sum_of f l1 = sum_of f l2.
Proof. induction 1; simpl; lia. Qed.

Lemma sum_of_initial f ms : (∀ m, f (initial_score m) = 0) → sum_of f (initial_score <$> ms) = 0.
Proof. intros Hf. induction ms as [|m ms IH]; csimpl; [done|]. rewrite Hf, IH. done. Qed.

Lemma filter_iff_on {A} (P1 P2 : A → Prop)
    `{!∀ x, Decision (P1 x), !∀ x, Decision (P2 x)} (l : list A) :
  (∀ x, x ∈ l → P1 x ↔ P2 x) → filter P1 l = filter P2 l.
Proof.
  induction l as [|a l IH]; intros HP; [done|].
  rewrite !filter_cons, IH by (intros x Hx; apply HP; by right).
  pose proof (HP a ltac:(left)). repeat case_decide; tauto || done.
Qed.

(** The scores a ballot hits with a weight of a given kind are no more than
    the entries of that kind on the ballot. *)
Lemma hits_le (P : Z → bool) vs scores :
  NoDup (id <$> (movie <$> scores)) →
  (length (filter (λ s, from_option P false (vs !! id (movie s)) = true) scores)
   ≤ length (filter (λ v, P v = true) (Object_values vs)))%nat.
Proof.
  revert vs. induction scores as [|s rest IH]; intros vs Hnd; [simpl; lia|].
  csimpl in Hnd. apply NoDup_cons in Hnd as [Hs Hnd].
  assert (filter (λ s0, from_option P false (vs !! id (movie s0)) = true) rest
          = filter (λ s0, from_option P false
                            (delete (id (movie s)) vs !! id (movie s0)) = true) rest)
    as Hrest.
  { apply filter_iff_on. intros s0 Hs0.
    rewrite lookup_delete_ne; [done|]. intros Heq. apply Hs. rewrite Heq.
    apply list_elem_of_fmap_2, list_elem_of_fmap_2, Hs0. }
  rewrite filter_cons, Hrest. specialize (IH (delete (id (movie s)) vs) Hnd).
  destruct (vs !! id (movie s)) as [v|] eqn:Hv.
  - unfold Object_values in *.
    rewrite <-(map_to_list_delete vs _ v Hv). csimpl. rewrite filter_cons. simpl.
    repeat case_decide; simpl; try done; lia.
  - rewrite delete_id in IH |- * by done. simpl.
    destruct (decide (false = true)); [done|]. lia.
Qed.

Lemma sum_of_count_ballot (f : ScoredMovie → Z) (P : Z → bool) name
    (vs : gmap string Z) scores :
  (∀ v s, f (count_vote name v s) = f s + (if P v then 1 else 0)) →
  sum_of f ((λ s, match vs !! id (movie s) with
                  | Some value => count_vote name value s
                  | None => s
                  end) <$> scores)
  = sum_of f scores
    + Z.of_nat (length (filter (λ s, from_option P false (vs !! id (movie s)) = true)
                          scores)).
Proof.
  intros Hf. induction scores as [|s rest IH]; csimpl; [done|].
  rewrite IH, filter_cons. destruct (vs !! id (movie s)) as [v|]; simpl.
  - rewrite Hf. destruct (P v); destruct (decide _); simpl; try done; lia.
  - destruct (decide (false = true)); [done|]. lia.
Qed.

Lemma press_within_limits b p : within_limits b → within_limits (press b p).
Proof. apply click_within_limits. Qed.

Lemma presses_limits ps :
  (length (filter (λ v : Z, (v =? 1)%Z = true) (Object_values (presses ∅ ps))) ≤ 7)%nat ∧
  (length (filter (λ v : Z, (v =? -1)%Z = true) (Object_values (presses ∅ ps))) ≤ 1)%nat.
Proof.
  assert (within_limits (presses ∅ ps)) as [Hp Hm].
  { induction ps as [|p ps IH] using rev_ind; [apply within_limits_empty|].
    rewrite presses_snoc. by apply press_within_limits. }
  assert (∀ w : Z, filter (λ v : Z, (v =? w) = true) (Object_values (presses ∅ ps))
                   = filter (λ v, v = w) (Object_values (presses ∅ ps))) as Hf
    by (intros w; apply list_filter_iff; intros v; by rewrite Z.eqb_eq).
  by rewrite !Hf.
Qed.

Lemma presses_signed ps : map_Forall (λ _ w, w = 1 ∨ w = -1) (presses ∅ ps).
Proof. intros k w Hkw. apply presses_entries_of in Hkw. tauto. Qed.

Lemma hits_of_ballot (w : Z) d scores :
  NoDup (id <$> (movie <$> scores)) →
  (length (filter (λ s, vote_on d (id (movie s)) = Some w) scores)
   ≤ length (filter (λ v : Z, (v =? w)%Z = true)
               (Object_values (default ∅ (votes d)))))%nat.
Proof.
  intros Hnd. etrans; [|apply (hits_le (λ v, v =? w) _ scores Hnd)].
  apply Nat.eq_le_incl. f_equal. apply list_filter_iff. intros s.
  unfold vote_on. destruct (votes d) as [vs|]; simpl.
  - destruct (vs !! id (movie s)) as [v|]; simpl; [|done].
    rewrite Z.eqb_eq. split; congruence.
  - by rewrite lookup_empty.
Qed.

Lemma scores_of_clicked entries ms electorate :
  enumerates entries → NoDup (id <$> ms) →
  sum_of plus (scores_of entries ms (ballot_by_clicks <$> electorate))
    ≤ 7 * Z.of_nat (length electorate) ∧
  sum_of minus (scores_of entries ms (ballot_by_clicks <$> electorate))
    ≤ Z.of_nat (length electorate).
Proof.
  intros Hen Hnd. induction electorate as [|[name ps] l [IHp IHm]] using rev_ind.
  - unfold scores_of. simpl. rewrite !sum_of_initial by done. lia.
  - rewrite fmap_app, length_app. csimpl. rewrite scores_of_snoc.
    rewrite (each_voteDoc_count_ballot _ _ _ (presses ∅ ps)) by done.
    assert (NoDup (id <$> (movie <$> scores_of entries ms (ballot_by_clicks <$> l))))
      as Hnd' by (by rewrite fmap_movie_scores_of).
    rewrite count_ballot_NoDup by done.
    destruct (presses_limits ps) as [Hp Hm].
    assert (filter (λ v : Z, negb (v =? 1) = true) (Object_values (presses ∅ ps))
            = filter (λ v : Z, (v =? -1) = true) (Object_values (presses ∅ ps))) as Hneg.
    { apply filter_iff_on. intros v Hv. unfold Object_values in Hv.
      apply list_elem_of_fmap in Hv as ([k w] & -> & Hkw). simpl.
      apply elem_of_map_to_list, presses_signed in Hkw as [-> | ->]; done. }
    rewrite (sum_of_count_ballot plus (λ v, v =? 1)),
      (sum_of_count_ballot minus (λ v, negb (v =? 1))).
    + pose proof (hits_le (λ v, v =? 1) (presses ∅ ps) _ Hnd') as H1.
      pose proof (hits_le (λ v, negb (v =? 1)) (presses ∅ ps) _ Hnd') as H2.
      cbv beta in H1, H2. rewrite Hneg in H2. simpl in *. lia.
    + intros v s. simpl. destruct (v =? 1); simpl; lia.
    + intros v s. simpl. destruct (v =? 1); simpl; lia.
Qed.

(** X19. From the clicks to the tally: where the listed movies have
    distinct ids and every ballot was built by clicks on the vote buttons,
    each voter's ballot counts as a positive vote in at most 7 scores of the
    tally and as a negative vote in at most 1, the [voters] of each score
    being the ballots that hold its movie; so the tally holds at most 7
    positive votes and 1 negative vote a voter in all, and every score has
    [total = plus - minus]. *)
Theorem tally_of_clicked_ballots entries ms electorate :
  enumerates entries → NoDup (id <$> ms) →
  let allVotes := ballot_by_clicks <$> electorate in
  let r := results entries ms allVotes in
  Forall (λ d,
    (length (filter (λ s, vote_on d (id (movie s)) = Some 1%Z) r) ≤ 7)%nat ∧
    (length (filter (λ s, vote_on d (id (movie s)) = Some (-1)%Z) r) ≤ 1)%nat)
    allVotes ∧
  Forall (λ s, voters s = votes_for (id (movie s)) allVotes) r ∧
  sum_of plus r ≤ 7 * Z.of_nat (length electorate) ∧
  sum_of minus r ≤ Z.of_nat (length electorate) ∧
  Forall (λ s, total s = plus s - minus s) r.
Proof.
  intros Hen Hnd. cbv zeta. unfold results.
  rewrite !(sum_of_Permutation _ _ _ (Array_sort_Permutation by_total _)).
  destruct (scores_of_clicked entries ms electorate Hen Hnd) as [Hp Hm].
  split_and!; [|rewrite Array_sort_Permutation; by apply scores_of_voters|done..|].
  - apply Forall_fmap, Forall_true. intros [name ps]. unfold compose. cbv beta.
    rewrite !(Array_sort_Permutation by_total).
    assert (NoDup (id <$> (movie <$>
              scores_of entries ms (ballot_by_clicks <$> electorate)))) as Hnd'
      by (by rewrite fmap_movie_scores_of).
    pose proof (hits_of_ballot 1 (ballot_by_clicks (name, ps)) _ Hnd') as H1.
    pose proof (hits_of_ballot (-1) (ballot_by_clicks (name, ps)) _ Hnd') as H2.
    destruct (presses_limits ps) as [Hl1 Hl2]. simpl in *. lia.
  - rewrite Array_sort_Permutation. apply Forall_balanced_scores_of; [done|].
    unfold signed_weights. apply Forall_fmap, Forall_true. intros [name ps]. simpl.
    apply presses_signed.
Qed.

Lemma tally_of_clicked_ballots_witness :
  Forall (λ d,
    (length (filter (λ s, vote_on d (id (movie s)) = Some 1%Z)
               (tally programme (ballot_by_clicks <$> two_voters))) ≤ 7)%nat ∧
    (length (filter (λ s, vote_on d (id (movie s)) = Some (-1)%Z)
               (tally programme (ballot_by_clicks <$> two_voters))) ≤ 1)%nat)
    (ballot_by_clicks <$> two_voters).
Proof.
  assert (enumerates map_to_list) as Hen by (intros o; reflexivity).
  assert (NoDup (id <$> programme)) as Hnd by by_evaluation.
  exact (proj1 (tally_of_clicked_ballots map_to_list programme two_voters Hen Hnd)).
Defined.

Lemma deletion_rights_witness :
  uid alice = uid alice ∧ nominatorId (film "a") = uid alice.
Proof.
  assert ((None : option string) ≠ Some "admin@example.org") as He by discriminate.
  assert (canDelete "admin@example.org" (Some alice) None (film "a") = true) as Hd
    by (vm_compute; reflexivity).
  exact (proj1 (proj2 (deletion_rights "admin@example.org"))
           alice alice None None (film "a") He He Hd Hd).
Defined.
